(** * bb-storage: the start-up wiring of [cmd/bb_storage/main.go]

    A shallow embedding of [main]: the flag lists, the two Go maps that
    [main] fills (the instance routing table [schedulers] and the write
    allow-list [allowActionCacheUpdatesForInstances]), the scheduler
    entry parser, the lookup closure handed to the demultiplexing build
    queue and the registration of the protocol servers.

    The packages [pkg/ac], [pkg/builder], [pkg/cas] and
    [pkg/blobstore/configuration] are called by [main] but their code is
    not part of the sources at hand; what is needed of them is modelled
    from the specification and marked as such. *)

From stdpp Require Import gmap strings list fin_maps.
From Stdlib Require Import ZArith Ascii.

Local Open Scope Z_scope.
Local Open Scope string_scope.
Local Open Scope list_scope.

#[local] Set Warnings "-clear-no-such-hyp".

(** ** Go's [strings] package, as far as [main] calls it *)

Module strings.

(** [s[n:]] *)
Fixpoint from (n : nat) (s : string) : string :=
  match n, s with
  | O, _ => s
  | S _, EmptyString => EmptyString
  | S n', String _ s' => from n' s'
  end.

(** [s[:n]] *)
Definition upto (n : nat) (s : string) : string := String.substring 0 n s.

(** [strings.Index]: the position of the first instance of [substr] in
    [s]; Go's [-1] is [None]. *)
Fixpoint Index (s substr : string) : option nat :=
  if String.prefix substr s then Some O
  else match s with
       | EmptyString => None
       | String _ s' =>
           match Index s' substr with
           | Some i => Some (S i)
           | None => None
           end
       end.

(** [explode], byte by byte (Go cuts at UTF-8 sequences, which is the
    same on ASCII text). [k] is the number of one-character pieces
    still to be cut off. *)
Fixpoint explode (k : nat) (s : string) : list string :=
  match s with
  | EmptyString => []
  | String c s' =>
      match k, s' with
      | O, _ => [s]
      | S _, EmptyString => [s]
      | S k', _ => String c EmptyString :: explode k' s'
      end
  end.

(** The loop of [genSplit] with [sepSave = 0]: [k] is [n - 1 - i], the
    number of cuts still allowed. *)
Fixpoint genSplit_loop (k : nat) (s sep : string) : list string :=
  match k with
  | O => [s]
  | S k' =>
      match Index s sep with
      | None => [s]
      | Some m =>
          upto m s :: genSplit_loop k' (from (m + String.length sep) s) sep
      end
  end.

(** [strings.SplitN(s, sep, n)].  For [n < 0] Go first counts the
    separators; running the loop until [Index] fails cuts at the same
    places. *)
Definition SplitN (s sep : string) (n : Z) : list string :=
  if (n =? 0)%Z then []
  else
    let len := Z.of_nat (String.length s) in
    let n' := if (n <? 0)%Z then len + 1 else Z.min n (len + 1) in
    if decide (sep = "") then explode (Z.to_nat (n' - 1)) s
    else genSplit_loop (Z.to_nat (n' - 1)) s sep.

End strings.

(** ** gRPC status codes and errors *)

(** [google.golang.org/grpc/codes], in the order of their numbers. *)
Inductive Code :=
  | OK | Canceled | Unknown | InvalidArgument | DeadlineExceeded | NotFound
  | AlreadyExists | PermissionDenied | ResourceExhausted | FailedPrecondition
  | Aborted | OutOfRange | Unimplemented | Internal | Unavailable | DataLoss
  | Unauthenticated.

#[global] Instance Code_eq_dec : EqDecision Code.
Proof. solve_decision. Defined.

(** An error made by [status.Errorf(code, message)]. *)
Record Status := status_Errorf { code : Code; message : string }.

#[global] Instance Status_eq_dec : EqDecision Status.
Proof. solve_decision. Defined.

(** A plain Go [error], kept as its [Error()] text. *)
Definition error := string.

(** ** The objects [main] creates and passes around *)

(** A [BlobAccess] interface value: an opaque handle onto one storage
    backend. *)
Record BlobAccess := { blobAccess_handle : nat }.

#[global] Instance BlobAccess_eq_dec : EqDecision BlobAccess.
Proof. solve_decision. Defined.

(** A [*grpc.ClientConn] returned by [grpc.Dial]: its address and the
    target it was dialed for. *)
Record ClientConn := { conn_addr : nat; conn_target : string }.

#[global] Instance ClientConn_eq_dec : EqDecision ClientConn.
Proof. solve_decision. Defined.

(** The values stored in the routing table.  Each constructor carries
    the address of the object, so that two calls of a [New...] function
    give two different queues and one call gives one shared queue. *)
Inductive BuildQueue :=
  | NonExecutableBuildQueue (addr : nat)
  | ForwardingBuildQueue (addr : nat) (scheduler : ClientConn).

#[global] Instance BuildQueue_eq_dec : EqDecision BuildQueue.
Proof. solve_decision. Defined.

Inductive Service :=
  | ActionCacheService
  | ContentAddressableStorageService
  | ByteStreamService
  | CapabilitiesService
  | ExecutionService.

#[global] Instance Service_eq_dec : EqDecision Service.
Proof. solve_decision. Defined.

(** What [main] does to the outside, in program order. *)
Inductive Event :=
  | EvGoListenAndServe (addr : string)
  | EvNewPrometheusExporter
  | EvViewRegister
  | EvNewOcagentExporter (address serviceName : string)
  | EvCreateBlobAccessObjectsFromConfig (path : string)
  | EvNewNonExecutableBuildQueue (addr : nat)
  | EvDial (target : string)
  | EvRegister (svc : Service)
  | EvListen (network address : string)
  | EvServe.

#[global] Instance Event_eq_dec : EqDecision Event.
Proof. solve_decision. Defined.

(** The mutable state of the process.  The two Go maps are reference
    objects shared between [main], the lookup closure and the action
    cache server: they are cells of the state, named as in [main], and a
    reference to one of them is the projection that reads the cell. *)
Record World := {
  schedulers : gmap string BuildQueue;
  allowActionCacheUpdatesForInstances : gmap string bool;
  next_addr : nat;
  trace : list Event;
}.

Definition World0 : World :=
  {| schedulers := ∅; allowActionCacheUpdatesForInstances := ∅;
     next_addr := 0; trace := [] |}.

(** ** The start-up monad: state, and [log.Fatal] as the error *)

Definition M (A : Type) : Type := World → (string + A) * World.

#[global] Instance M_ret : MRet M := λ A a w, (inr a, w).

#[global] Instance M_bind : MBind M := λ A B f m w,
  match m w with
  | (inl msg, w') => (inl msg, w')
  | (inr a, w') => f a w'
  end.

(** [log.Fatal(prefix, rest)]: both operands are printed without a
    separating space because the first one is a string. *)
Definition log_Fatal {A} (msg : string) : M A := λ w, (inl msg, w).

Definition emit (ev : Event) : M unit := λ w,
  (inr tt,
   {| schedulers := schedulers w;
      allowActionCacheUpdatesForInstances := allowActionCacheUpdatesForInstances w;
      next_addr := next_addr w;
      trace := trace w ++ [ev] |}).

(** A fresh object address. *)
Definition alloc : M nat := λ w,
  (inr (next_addr w),
   {| schedulers := schedulers w;
      allowActionCacheUpdatesForInstances := allowActionCacheUpdatesForInstances w;
      next_addr := S (next_addr w);
      trace := trace w |}).

(** [schedulers = map[string]builder.BuildQueue{}] *)
Definition make_schedulers : M unit := λ w,
  (inr tt,
   {| schedulers := ∅;
      allowActionCacheUpdatesForInstances := allowActionCacheUpdatesForInstances w;
      next_addr := next_addr w;
      trace := trace w |}).

(** [allowActionCacheUpdatesForInstances = map[string]bool{}] *)
Definition make_allowActionCacheUpdatesForInstances : M unit := λ w,
  (inr tt,
   {| schedulers := schedulers w;
      allowActionCacheUpdatesForInstances := ∅;
      next_addr := next_addr w;
      trace := trace w |}).

(** [schedulers[key] = queue] *)
Definition store_schedulers (key : string) (queue : BuildQueue) : M unit := λ w,
  (inr tt,
   {| schedulers := <[key := queue]> (schedulers w);
      allowActionCacheUpdatesForInstances := allowActionCacheUpdatesForInstances w;
      next_addr := next_addr w;
      trace := trace w |}).

(** [allowActionCacheUpdatesForInstances[key] = b] *)
Definition store_allowActionCacheUpdatesForInstances
    (key : string) (b : bool) : M unit := λ w,
  (inr tt,
   {| schedulers := schedulers w;
      allowActionCacheUpdatesForInstances :=
        <[key := b]> (allowActionCacheUpdatesForInstances w);
      next_addr := next_addr w;
      trace := trace w |}).

(** [if err != nil { log.Fatal(prefix, err) }] *)
Definition fatal_on (prefix : string) (err : option error) : M unit :=
  match err with
  | Some e => log_Fatal (prefix +:+ e)
  | None => mret tt
  end.

(** [for _, x := range l { body }] *)
Fixpoint range {A} (l : list A) (body : A → M unit) : M unit :=
  match l with
  | [] => mret tt
  | x :: l' => body x;; range l' body
  end.

(** ** The protocol servers and queues built by [main] *)

(** Modelled from the spec: [ac.NewBlobAccessActionCache] of [pkg/ac] is
    not in the sources; the action cache "wraps a BlobAccess instance",
    the one it is constructed over. *)
Record ActionCache := NewBlobAccessActionCache { ac_blobAccess : BlobAccess }.

(** Modelled from the spec: [ac.NewActionCacheServer] of [pkg/ac] is not
    in the sources; the server keeps the action cache and the allow-list
    map it is given.  A Go map is passed by reference, so the field is
    the reference (the reader of the cell), not a copy. *)
Record ActionCacheServer := NewActionCacheServer {
  actionCache : ActionCache;
  allowUpdatesForInstances : World → gmap string bool;
}.

(** Modelled from the spec: [cas.NewContentAddressableStorageServer] of
    [pkg/cas] is not in the sources; the server keeps its BlobAccess. *)
Record ContentAddressableStorageServer := NewContentAddressableStorageServer {
  cas_blobAccess : BlobAccess;
}.

(** Modelled from the spec: [cas.NewByteStreamServer] of [pkg/cas] is not
    in the sources; the server keeps its BlobAccess and the "fixed
    maximum chunk size" of the download path. *)
Record ByteStreamServer := NewByteStreamServer {
  bs_blobAccess : BlobAccess;
  readChunkSize : Z;
}.

(** Modelled from the spec: [builder.NewDemultiplexingBuildQueue] of
    [pkg/builder] is not in the sources; the queue keeps the "lookup
    function".  The function is a Go closure over variables of [main]:
    it runs in the state at the time of the call and, like any closure,
    could change what it captures, so it returns a state too. *)
Record DemultiplexingBuildQueue := NewDemultiplexingBuildQueue {
  getBackend : string → World → (Status + BuildQueue) * World;
}.

(** The [*grpc.Server] with the services registered on it so far. *)
Record Server := {
  actionCacheServer : option ActionCacheServer;
  contentAddressableStorageServer : option ContentAddressableStorageServer;
  byteStreamServer : option ByteStreamServer;
  capabilitiesServer : option DemultiplexingBuildQueue;
  executionServer : option DemultiplexingBuildQueue;
}.

(** [grpc.NewServer(...)] *)
Definition grpc_NewServer : Server :=
  {| actionCacheServer := None; contentAddressableStorageServer := None;
     byteStreamServer := None; capabilitiesServer := None;
     executionServer := None |}.

Definition RegisterActionCacheServer (s : Server) (srv : ActionCacheServer)
    : M Server :=
  emit (EvRegister ActionCacheService);;
  mret {| actionCacheServer := Some srv;
          contentAddressableStorageServer := contentAddressableStorageServer s;
          byteStreamServer := byteStreamServer s;
          capabilitiesServer := capabilitiesServer s;
          executionServer := executionServer s |}.

Definition RegisterContentAddressableStorageServer
    (s : Server) (srv : ContentAddressableStorageServer) : M Server :=
  emit (EvRegister ContentAddressableStorageService);;
  mret {| actionCacheServer := actionCacheServer s;
          contentAddressableStorageServer := Some srv;
          byteStreamServer := byteStreamServer s;
          capabilitiesServer := capabilitiesServer s;
          executionServer := executionServer s |}.

Definition RegisterByteStreamServer (s : Server) (srv : ByteStreamServer)
    : M Server :=
  emit (EvRegister ByteStreamService);;
  mret {| actionCacheServer := actionCacheServer s;
          contentAddressableStorageServer := contentAddressableStorageServer s;
          byteStreamServer := Some srv;
          capabilitiesServer := capabilitiesServer s;
          executionServer := executionServer s |}.

Definition RegisterCapabilitiesServer (s : Server) (srv : DemultiplexingBuildQueue)
    : M Server :=
  emit (EvRegister CapabilitiesService);;
  mret {| actionCacheServer := actionCacheServer s;
          contentAddressableStorageServer := contentAddressableStorageServer s;
          byteStreamServer := byteStreamServer s;
          capabilitiesServer := Some srv;
          executionServer := executionServer s |}.

Definition RegisterExecutionServer (s : Server) (srv : DemultiplexingBuildQueue)
    : M Server :=
  emit (EvRegister ExecutionService);;
  mret {| actionCacheServer := actionCacheServer s;
          contentAddressableStorageServer := contentAddressableStorageServer s;
          byteStreamServer := byteStreamServer s;
          capabilitiesServer := capabilitiesServer s;
          executionServer := Some srv |}.

(** ** The flags and the outside world *)

(** The parsed command line.  The two [util.StringList] flags collect
    their occurrences in order. *)
Record Flags := {
  blobstoreConfig : string;
  webListenAddress : string;
  ocagentAddress : string;
  ocagentServiceName : string;
  schedulersList : list string;
  allowActionCacheUpdatesForInstancesList : list string;
}.

(** The results of the calls [main] makes into other packages: [None]
    is a [nil] error. *)
Record Env := {
  prometheus_exporter_NewExporter : option error;
  view_Register : option error;
  ocagent_NewExporter : string → string → option error;
  CreateBlobAccessObjectsFromConfig : string → error + BlobAccess * BlobAccess;
  grpc_Dial : string → option error;
  net_Listen : string → string → option error;
}.

(** ** [main] *)

Section main.
Variable env : Env.

(** [builder.NewNonExecutableBuildQueue()] *)
Definition NewNonExecutableBuildQueue : M BuildQueue :=
  a ← alloc;
  emit (EvNewNonExecutableBuildQueue a);;
  mret (NonExecutableBuildQueue a).

(** [builder.NewForwardingBuildQueue(scheduler)] *)
Definition NewForwardingBuildQueue (scheduler : ClientConn) : M BuildQueue :=
  a ← alloc;
  mret (ForwardingBuildQueue a scheduler).

(** [grpc.Dial(target, ...)] followed by the check of its error. *)
Definition Dial (target : string) : M ClientConn :=
  emit (EvDial target);;
  fatal_on "Failed to create scheduler RPC client: " (grpc_Dial env target);;
  a ← alloc;
  mret {| conn_addr := a; conn_target := target |}.

(** Lines 91-97: the fallback for instances that may write into the
    action cache. *)
Definition fallback_pass (l : list string) : M unit :=
  if decide (0 < length l)%nat then
    fallback ← NewNonExecutableBuildQueue;
    range l (λ instance,
      store_schedulers instance fallback;;
      store_allowActionCacheUpdatesForInstances instance true)
  else mret tt.

(** Lines 101-113: the body of the loop over the scheduler flags. *)
Definition scheduler_body (schedulerEntry : string) : M unit :=
  let components := strings.SplitN schedulerEntry "|" 2 in
  (if decide (length components ≠ 2%nat)
   then log_Fatal ("Invalid scheduler entry: " +:+ schedulerEntry)
   else mret tt);;
  scheduler ← Dial (components !!! 1%nat);
  queue ← NewForwardingBuildQueue scheduler;
  store_schedulers (components !!! 0%nat) queue.

(** Lines 100-114. *)
Definition scheduler_pass (l : list string) : M unit :=
  range l scheduler_body.

(** Lines 115-121: the closure handed to the demultiplexing queue. *)
Definition lookup (instance : string) (w : World)
    : (Status + BuildQueue) * World :=
  match schedulers w !! instance with
  | None => (inl (status_Errorf InvalidArgument "Unknown instance name"), w)
  | Some scheduler => (inr scheduler, w)
  end.

(** Lines 48-77: "Web server for metrics and profiling" and the
    exporters.  The goroutine that runs [http.ListenAndServe] is only
    recorded as started: this is the run of the main goroutine.  What
    the goroutine itself can do to the process is in [process]
    below. *)
Definition observability (flags : Flags) : M unit :=
  emit (EvGoListenAndServe (webListenAddress flags));;
  emit EvNewPrometheusExporter;;
  fatal_on "Failed to create the Prometheus stats exporter: "
    (prometheus_exporter_NewExporter env);;
  emit EvViewRegister;;
  fatal_on "Failed to register ocgrpc server views: " (view_Register env);;
  if decide (ocagentAddress flags ≠ "") then
    emit (EvNewOcagentExporter (ocagentAddress flags) (ocagentServiceName flags));;
    fatal_on "Failed to create ocagent-exporter: "
      (ocagent_NewExporter env (ocagentAddress flags) (ocagentServiceName flags))
  else mret tt.

(** Lines 79-83: "Storage access". *)
Definition storage_access (flags : Flags) : M (BlobAccess * BlobAccess) :=
  emit (EvCreateBlobAccessObjectsFromConfig (blobstoreConfig flags));;
  match CreateBlobAccessObjectsFromConfig env (blobstoreConfig flags) with
  | inl err => log_Fatal ("Failed to create blob access: " +:+ err)
  | inr handles => mret handles
  end.

(** Lines 89-114: the two tables. *)
Definition tables (flags : Flags) : M unit :=
  make_schedulers;;
  make_allowActionCacheUpdatesForInstances;;
  fallback_pass (allowActionCacheUpdatesForInstancesList flags);;
  (* Backends capable of compiling. *)
  scheduler_pass (schedulersList flags).

(** Lines 84 and 115-141: the action cache, the demultiplexing queue and
    the "RPC server", up to the call of [s.Serve(sock)], from where on
    the process serves calls.  The calls that only switch on metrics
    ([grpc_prometheus.Register] and the like) have no part in what
    follows and are left out. *)
Definition rpc_server
    (contentAddressableStorageBlobAccess actionCacheBlobAccess : BlobAccess)
    : M Server :=
  let actionCache := NewBlobAccessActionCache actionCacheBlobAccess in
  let buildQueue := NewDemultiplexingBuildQueue lookup in
  let s := grpc_NewServer in
  s ← RegisterActionCacheServer s
        (NewActionCacheServer actionCache allowActionCacheUpdatesForInstances);
  s ← RegisterContentAddressableStorageServer s
        (NewContentAddressableStorageServer contentAddressableStorageBlobAccess);
  s ← RegisterByteStreamServer s
        (NewByteStreamServer contentAddressableStorageBlobAccess (Z.shiftl 1 16));
  s ← RegisterCapabilitiesServer s buildQueue;
  s ← RegisterExecutionServer s buildQueue;
  emit (EvListen "tcp" ":8980");;
  fatal_on "Failed to create listening socket: " (net_Listen env "tcp" ":8980");;
  emit EvServe;;
  mret s.

(** [main], in the order of its four parts.  A result [inl msg] is the
    process ended by [log.Fatal]; a result [inr s] is the process
    serving [s]. *)
Definition main (flags : Flags) : M Server :=
  observability flags;;
  '(contentAddressableStorageBlobAccess, actionCacheBlobAccess) ←
    storage_access flags;
  tables flags;;
  rpc_server contentAddressableStorageBlobAccess actionCacheBlobAccess.

End main.

(** ** Serving calls

    The handlers of the protocol servers live in [pkg/ac], [pkg/cas] and
    [pkg/builder]; they are modelled from the specification.  The storage
    backends behind a [BlobAccess] and the remote schedulers behind a
    [ClientConn] are outside the program: they are a parameter. *)

(** The content of a blob, and of an action result, which the spec
    keeps opaque. *)
Definition Blob := list Byte.byte.

(** Modelled from the spec: the [Digest] of [pkg/util] is not in the
    sources; it is "[{instance, hash, sizeBytes}]". *)
Record Digest := { instance : string; hash : string; sizeBytes : Z }.

(** Modelled from the spec: the answer to [GetCapabilities], "advertises
    cache capability" and whether execution is enabled. *)
Record ServerCapabilities := {
  cacheCapabilities : bool;
  execEnabled : bool;
}.

(** Modelled from the spec: the contract of [BlobAccess] (section 4.1) and
    of a remote scheduler, over an arbitrary backend state. *)
Record Backends := {
  Store : Type;
  BlobAccess_Get : BlobAccess → Digest → Store → (Status + Blob) * Store;
  BlobAccess_Put : BlobAccess → Digest → Blob → Store → option Status * Store;
  BlobAccess_FindMissing :
    BlobAccess → string → list Digest → Store → list Digest * Store;
  scheduler_GetCapabilities : ClientConn → string → Status + ServerCapabilities;
  scheduler_Execute : ClientConn → Digest → list Blob * option Status;
  (** the texts of the errors, which the spec leaves open *)
  not_implemented_text : string;
  permission_denied_text : string;
}.

(** A call that left this process for a backend. *)
Inductive BackendCall :=
  | CallGet (b : BlobAccess) (d : Digest)
  | CallPut (b : BlobAccess) (d : Digest)
  | CallFindMissing (b : BlobAccess)
  | CallQueue (q : BuildQueue).

(** Modelled from the spec: the calls of the "RPC surface" (section 6)
    that the properties below are about, each with the instance name and
    digest it carries. *)
Inductive Request :=
  | GetActionResult (d : Digest)
  | UpdateActionResult (d : Digest) (result : Blob)
  | FindMissingBlobs (instanceName : string) (digests : list Digest)
  | Read (d : Digest) (readOffset : Z)
  | GetCapabilities (instanceName : string)
  | Execute (d : Digest).

(** The answer to a call: an error status, or the payload of the
    call. *)
Inductive Response :=
  | Failed (err : Status)
  | ActionResult (result : Blob)
  | MissingBlobs (digests : list Digest)
  | ReadResponses (chunks : list Blob)
  | Capabilities (caps : ServerCapabilities)
  | Operations (events : list Blob) (err : option Status).

(** Modelled from the spec: the download path cuts the content into
    "bounded chunks (a fixed maximum chunk size)".  [fuel] bounds the
    number of chunks; the length of the content is enough. *)
Fixpoint chunks_loop (fuel size : nat) (data : Blob) : list Blob :=
  match fuel, data with
  | O, _ => []
  | S _, [] => []
  | S fuel', _ => take size data :: chunks_loop fuel' size (drop size data)
  end.

Definition chunks (size : nat) (data : Blob) : list Blob :=
  chunks_loop (length data) size data.

Section serving.
Variable B : Backends.

(** The state while serving: the process state left by [main], the
    state of the backends, and the backend calls made so far. *)
Record ServeState := {
  world : World;
  store : Store B;
  calls : list BackendCall;
}.

Definition call (c : BackendCall) (w : World) (st : Store B)
    (cs : list BackendCall) : ServeState :=
  {| world := w; store := st; calls := cs ++ [c] |}.

(** Modelled from the spec: [GetActionResult] is "pure delegation to
    the underlying BlobAccess [Get] against the action-cache
    namespace". *)
Definition ActionCacheServer_GetActionResult (srv : ActionCacheServer)
    (d : Digest) (s : ServeState) : Response * ServeState :=
  let b := ac_blobAccess (actionCache srv) in
  let '(r, st) := BlobAccess_Get B b d (store s) in
  (match r with inl err => Failed err | inr blob => ActionResult blob end,
   call (CallGet b d) (world s) st (calls s)).

(** Modelled from the spec: [UpdateActionResult] is "permitted only if
    [instance] appears in the write allow-list; otherwise rejected
    without touching storage", with "permission denied".  Reading a Go
    [map[string]bool] at a missing key gives [false]. *)
Definition ActionCacheServer_UpdateActionResult (srv : ActionCacheServer)
    (d : Digest) (result : Blob) (s : ServeState) : Response * ServeState :=
  if default false (allowUpdatesForInstances srv (world s) !! instance d) then
    let b := ac_blobAccess (actionCache srv) in
    let '(r, st) := BlobAccess_Put B b d result (store s) in
    (match r with Some err => Failed err | None => ActionResult result end,
     call (CallPut b d) (world s) st (calls s))
  else
    (Failed (status_Errorf PermissionDenied (permission_denied_text B)), s).

(** Modelled from the spec: [FindMissingBlobs] is a "thin pass-through
    to BlobAccess.FindMissing". *)
Definition ContentAddressableStorageServer_FindMissingBlobs
    (srv : ContentAddressableStorageServer)
    (instanceName : string) (digests : list Digest) (s : ServeState)
    : Response * ServeState :=
  let b := cas_blobAccess srv in
  let '(r, st) := BlobAccess_FindMissing B b instanceName digests (store s) in
  (MissingBlobs r, call (CallFindMissing b) (world s) st (calls s)).

(** Modelled from the spec: the download path "streams blob content in
    bounded chunks" of at most the server's chunk size and "supports
    resuming from a caller-supplied byte offset". *)
Definition ByteStreamServer_Read (srv : ByteStreamServer)
    (d : Digest) (readOffset : Z) (s : ServeState) : Response * ServeState :=
  let b := bs_blobAccess srv in
  let '(r, st) := BlobAccess_Get B b d (store s) in
  (match r with
   | inl err => Failed err
   | inr blob =>
       ReadResponses
         (chunks (Z.to_nat (readChunkSize srv)) (drop (Z.to_nat readOffset) blob))
   end,
   call (CallGet b d) (world s) st (calls s)).

(** Modelled from the spec: the non-executable queue "advertises cache
    capability, no execution capability"; the forwarding queue
    "re-issues" the call to its remote scheduler. *)
Definition BuildQueue_GetCapabilities (q : BuildQueue) (instanceName : string)
    : Response :=
  match q with
  | NonExecutableBuildQueue _ =>
      Capabilities {| cacheCapabilities := true; execEnabled := false |}
  | ForwardingBuildQueue _ scheduler =>
      match scheduler_GetCapabilities B scheduler instanceName with
      | inl err => Failed err
      | inr caps => Capabilities caps
      end
  end.

(** Modelled from the spec: on the non-executable queue "Execute always
    fails with a not implemented condition"; the forwarding queue
    relays the scheduler's events and final error. *)
Definition BuildQueue_Execute (q : BuildQueue) (d : Digest) : Response :=
  match q with
  | NonExecutableBuildQueue _ =>
      Failed (status_Errorf Unimplemented (not_implemented_text B))
  | ForwardingBuildQueue _ scheduler =>
      let '(events, err) := scheduler_Execute B scheduler d in
      Operations events err
  end.

(** Modelled from the spec: the demultiplexing queue "resolves the
    BuildQueue variant for the call's instance name via a lookup
    function and delegates"; when the lookup fails it fails with the
    lookup's error "instead of forwarding". *)
Definition DemultiplexingBuildQueue_GetCapabilities
    (dq : DemultiplexingBuildQueue) (instanceName : string) (s : ServeState)
    : Response * ServeState :=
  match getBackend dq instanceName (world s) with
  | (inl err, w) => (Failed err, {| world := w; store := store s; calls := calls s |})
  | (inr q, w) =>
      (BuildQueue_GetCapabilities q instanceName,
       call (CallQueue q) w (store s) (calls s))
  end.

Definition DemultiplexingBuildQueue_Execute
    (dq : DemultiplexingBuildQueue) (d : Digest) (s : ServeState)
    : Response * ServeState :=
  match getBackend dq (instance d) (world s) with
  | (inl err, w) => (Failed err, {| world := w; store := store s; calls := calls s |})
  | (inr q, w) =>
      (BuildQueue_Execute q d, call (CallQueue q) w (store s) (calls s))
  end.

(** A call for a service that was never registered is answered by
    gRPC itself. *)
Definition unknown_service : Status :=
  status_Errorf Unimplemented "unknown service".

Definition on_service {A} (srv : option A)
    (h : A → ServeState → Response * ServeState) (s : ServeState)
    : Response * ServeState :=
  match srv with
  | Some a => h a s
  | None => (Failed unknown_service, s)
  end.

(** One call against the server [g] that [main] serves. *)
Definition handle (g : Server) (rq : Request) (s : ServeState)
    : Response * ServeState :=
  match rq with
  | GetActionResult d =>
      on_service (actionCacheServer g)
        (λ srv, ActionCacheServer_GetActionResult srv d) s
  | UpdateActionResult d result =>
      on_service (actionCacheServer g)
        (λ srv, ActionCacheServer_UpdateActionResult srv d result) s
  | FindMissingBlobs i digests =>
      on_service (contentAddressableStorageServer g)
        (λ srv, ContentAddressableStorageServer_FindMissingBlobs srv i digests) s
  | Read d off =>
      on_service (byteStreamServer g) (λ srv, ByteStreamServer_Read srv d off) s
  | GetCapabilities i =>
      on_service (capabilitiesServer g)
        (λ dq, DemultiplexingBuildQueue_GetCapabilities dq i) s
  | Execute d =>
      on_service (executionServer g)
        (λ dq, DemultiplexingBuildQueue_Execute dq d) s
  end.

(** The calls of a whole run, one after the other, with the state after
    each of them. *)
Fixpoint serve (g : Server) (rqs : list Request) (s : ServeState)
    : list (Response * ServeState) :=
  match rqs with
  | [] => []
  | rq :: rqs' =>
      let '(r, s') := handle g rq s in
      (r, s') :: serve g rqs' s'
  end.

End serving.

(** ** Notions used to state the properties *)

(** The two components a well-formed scheduler entry splits into. *)
Definition entry_instance (schedulerEntry : string) : string :=
  strings.SplitN schedulerEntry "|" 2 !!! 0%nat.

Definition entry_endpoint (schedulerEntry : string) : string :=
  strings.SplitN schedulerEntry "|" 2 !!! 1%nat.

(** The routing table after the scheduler loop has run over [l] without
    a fatal error, started with [n] as the next free address: every
    entry takes two addresses, one for the connection and one for the
    queue. *)
Fixpoint forwarders (n : nat) (l : list string) (m : gmap string BuildQueue)
    : gmap string BuildQueue :=
  match l with
  | [] => m
  | e :: l' =>
      forwarders (S (S n)) l'
        (<[entry_instance e :=
             ForwardingBuildQueue (S n)
               {| conn_addr := n; conn_target := entry_endpoint e |}]> m)
  end.

(** The two tables after the fallback loop has run over [l] with the
    queue [fallback]. *)
Definition fallbacks (fallback : BuildQueue) (l : list string)
    (m : gmap string BuildQueue) : gmap string BuildQueue :=
  foldl (λ m instance, <[instance := fallback]> m) m l.

Definition allowed (l : list string) (m : gmap string bool) : gmap string bool :=
  foldl (λ m instance, <[instance := true]> m) m l.

(** The string has a ['|'] among its characters. *)
Definition contains_bar (s : string) : Prop :=
  "|"%char ∈ String.list_ascii_of_string s.

(** A scheduler entry the loop gets past: it has the separator and its
    endpoint can be dialed. *)
Definition passes (env : Env) (e : string) : Prop :=
  contains_bar e ∧ grpc_Dial env (entry_endpoint e) = None.

(** The state [w] after the events [evs]. *)
Definition with_trace (w : World) (evs : list Event) : World :=
  {| schedulers := schedulers w;
     allowActionCacheUpdatesForInstances := allowActionCacheUpdatesForInstances w;
     next_addr := next_addr w;
     trace := trace w ++ evs |}.

(** The events of the first part of [main] when it goes through. *)
Definition observability_trace (flags : Flags) : list Event :=
  [EvGoListenAndServe (webListenAddress flags); EvNewPrometheusExporter;
   EvViewRegister]
  ++ (if decide (ocagentAddress flags ≠ "")
      then [EvNewOcagentExporter (ocagentAddress flags) (ocagentServiceName flags)]
      else []).

(** The events of the last part of [main] when it goes through. *)
Definition rpc_server_trace : list Event :=
  [EvRegister ActionCacheService;
   EvRegister ContentAddressableStorageService;
   EvRegister ByteStreamService;
   EvRegister CapabilitiesService;
   EvRegister ExecutionService;
   EvListen "tcp" ":8980";
   EvServe].

(** The events of a start-up that gets as far as serving. *)
Definition startup_trace (flags : Flags) : list Event :=
  observability_trace flags
  ++ [EvCreateBlobAccessObjectsFromConfig (blobstoreConfig flags)]
  ++ (if decide (0 < length (allowActionCacheUpdatesForInstancesList flags))%nat
      then [EvNewNonExecutableBuildQueue 0] else [])
  ++ (EvDial ∘ entry_endpoint <$> schedulersList flags)
  ++ rpc_server_trace.

(** The address the scheduler loop starts to allocate at: the fallback
    queue, when there is one, has taken address 0. *)
Definition first_scheduler_addr (flags : Flags) : nat :=
  if decide (0 < length (allowActionCacheUpdatesForInstancesList flags))%nat
  then 1%nat else 0%nat.

(** The state of a start-up that gets as far as serving. *)
Definition startup_world (flags : Flags) : World :=
  {| schedulers :=
       forwarders (first_scheduler_addr flags) (schedulersList flags)
         (fallbacks (NonExecutableBuildQueue 0)
            (allowActionCacheUpdatesForInstancesList flags) ∅);
     allowActionCacheUpdatesForInstances :=
       allowed (allowActionCacheUpdatesForInstancesList flags) ∅;
     next_addr :=
       (first_scheduler_addr flags + 2 * length (schedulersList flags))%nat;
     trace := startup_trace flags |}.

(** The server with the five services of [main] registered over the
    handles [cas] and [acb]. *)
Definition registered (cas acb : BlobAccess) : Server :=
  {| actionCacheServer :=
       Some (NewActionCacheServer (NewBlobAccessActionCache acb)
               allowActionCacheUpdatesForInstances);
     contentAddressableStorageServer :=
       Some (NewContentAddressableStorageServer cas);
     byteStreamServer := Some (NewByteStreamServer cas (Z.shiftl 1 16));
     capabilitiesServer := Some (NewDemultiplexingBuildQueue lookup);
     executionServer := Some (NewDemultiplexingBuildQueue lookup) |}.

(** Every call of [main] into another package returns without an
    error. *)
Definition startup_ok (env : Env) (flags : Flags) : Prop :=
  prometheus_exporter_NewExporter env = None
  ∧ view_Register env = None
  ∧ (ocagentAddress flags ≠ "" →
     ocagent_NewExporter env (ocagentAddress flags) (ocagentServiceName flags) = None)
  ∧ (∃ handles,
       CreateBlobAccessObjectsFromConfig env (blobstoreConfig flags) = inr handles)
  ∧ Forall (passes env) (schedulersList flags)
  ∧ net_Listen env "tcp" ":8980" = None.

(** The calls of [main] before the tables are built return without an
    error. *)
Definition early_ok (env : Env) (flags : Flags) : Prop :=
  prometheus_exporter_NewExporter env = None
  ∧ view_Register env = None
  ∧ (ocagentAddress flags ≠ "" →
     ocagent_NewExporter env (ocagentAddress flags) (ocagentServiceName flags) = None)
  ∧ ∃ handles,
      CreateBlobAccessObjectsFromConfig env (blobstoreConfig flags) = inr handles.

(** The calls of [main] before the storage configuration is resolved
    return without an error. *)
Definition observability_ok_env (env : Env) (flags : Flags) : Prop :=
  prometheus_exporter_NewExporter env = None
  ∧ view_Register env = None
  ∧ (ocagentAddress flags ≠ "" →
     ocagent_NewExporter env (ocagentAddress flags) (ocagentServiceName flags) = None).

(** The event is one of the RPC server: a registration or the start of
    serving. *)
Definition rpc_event (ev : Event) : Prop :=
  match ev with
  | EvRegister _ | EvServe => True
  | _ => False
  end.

(** The event is one of the first part of [main]. *)
Definition observability_event (ev : Event) : Prop :=
  match ev with
  | EvGoListenAndServe _ | EvNewPrometheusExporter | EvViewRegister
  | EvNewOcagentExporter _ _ => True
  | _ => False
  end.

(** Whatever the outcome of [m], it only adds events that satisfy [P]. *)
Definition emits {A} (P : Event → Prop) (m : M A) : Prop :=
  ∀ w r w', m w = (r, w') →
    ∃ evs, trace w' = trace w ++ evs ∧ Forall P evs.

(** The targets of the calls of [grpc.Dial], in program order. *)
Definition dials (t : list Event) : list string :=
  omap (λ ev, match ev with EvDial target => Some target | _ => None end) t.

(** The non-executable queues created, by address. *)
Definition fallbacks_created (t : list Event) : list nat :=
  omap (λ ev,
    match ev with EvNewNonExecutableBuildQueue a => Some a | _ => None end) t.

(** The configurations handed to [CreateBlobAccessObjectsFromConfig], in
    program order. *)
Definition resolutions (t : list Event) : list string :=
  omap (λ ev,
    match ev with
    | EvCreateBlobAccessObjectsFromConfig path => Some path
    | _ => None
    end) t.

(** The services registered, in program order. *)
Definition registrations (t : list Event) : list Service :=
  omap (λ ev, match ev with EvRegister svc => Some svc | _ => None end) t.

(** The storage handles of the calls made to a [BlobAccess]. *)
Definition blob_backends (cs : list BackendCall) : list BlobAccess :=
  omap (λ c,
    match c with
    | CallGet b _ | CallPut b _ | CallFindMissing b => Some b
    | CallQueue _ => None
    end) cs.

(** The storage handle a call may use: the action-cache handle for the
    action cache service, the other one for the content-addressable
    storage and the ByteStream service, none for the build queue. *)
Definition service_handle (cas acb : BlobAccess) (rq : Request)
    : option BlobAccess :=
  match rq with
  | GetActionResult _ | UpdateActionResult _ _ => Some acb
  | FindMissingBlobs _ _ | Read _ _ => Some cas
  | GetCapabilities _ | Execute _ => None
  end.

(** Whether the process has begun to serve. *)
Definition serving (w : World) : Prop := EvServe ∈ trace w.

(** ** A concrete deployment, to run the definitions on *)

Definition example_cas : BlobAccess := {| blobAccess_handle := 0 |}.
Definition example_ac : BlobAccess := {| blobAccess_handle := 1 |}.

Definition example_env : Env :=
  {| prometheus_exporter_NewExporter := None;
     view_Register := None;
     ocagent_NewExporter := λ _ _, None;
     CreateBlobAccessObjectsFromConfig := λ _, inr (example_cas, example_ac);
     grpc_Dial := λ _, None;
     net_Listen := λ _ _, None |}.

(** The same, with a storage configuration that cannot be resolved. *)
Definition example_env_no_storage : Env :=
  {| prometheus_exporter_NewExporter := None;
     view_Register := None;
     ocagent_NewExporter := λ _ _, None;
     CreateBlobAccessObjectsFromConfig := λ _, inl "open: no such file";
     grpc_Dial := λ _, None;
     net_Listen := λ _ _, None |}.

Definition example_flags : Flags :=
  {| blobstoreConfig := "/config/blobstore.conf";
     webListenAddress := ":80";
     ocagentAddress := "";
     ocagentServiceName := "bb-storage";
     schedulersList :=
       ["debian8|old-scheduler:8981"; "ubuntu|ubuntu-scheduler:8981";
        "debian8|new|scheduler:8981"];
     allowActionCacheUpdatesForInstancesList := ["debian8"; "cache-only"] |}.

(** The same, with a scheduler flag that lacks the separator. *)
Definition example_flags_invalid : Flags :=
  {| blobstoreConfig := "/config/blobstore.conf";
     webListenAddress := ":80";
     ocagentAddress := "";
     ocagentServiceName := "bb-storage";
     schedulersList := ["ubuntu|ubuntu-scheduler:8981"; "debian8"; "x|y"];
     allowActionCacheUpdatesForInstancesList := ["debian8"; "cache-only"] |}.

(** Backends that store nothing and schedulers that accept everything. *)
Definition example_backends : Backends :=
  {| Store := nat;
     BlobAccess_Get := λ _ _ st, (inl (status_Errorf NotFound "Blob not found"), st);
     BlobAccess_Put := λ _ _ _ st, (None, S st);
     BlobAccess_FindMissing := λ _ _ digests st, (digests, st);
     scheduler_GetCapabilities := λ _ _,
       inr {| cacheCapabilities := true; execEnabled := true |};
     scheduler_Execute := λ _ _, ([], None);
     not_implemented_text := "This service does not support remote execution";
     permission_denied_text := "This service can only be used to get action results" |}.

(** Backends that hold one blob of three bytes under every digest. *)
Definition example_backends_blob : Backends :=
  {| Store := nat;
     BlobAccess_Get := λ _ _ st, (inr [Byte.x01; Byte.x02; Byte.x03], st);
     BlobAccess_Put := λ _ _ _ st, (None, S st);
     BlobAccess_FindMissing := λ _ _ _ st, ([], st);
     scheduler_GetCapabilities := λ _ _,
       inr {| cacheCapabilities := true; execEnabled := true |};
     scheduler_Execute := λ _ _, ([], None);
     not_implemented_text := "This service does not support remote execution";
     permission_denied_text := "This service can only be used to get action results" |}.

Definition example_state_blob : ServeState example_backends_blob :=
  Build_ServeState example_backends_blob (startup_world example_flags) 0%nat [].

Definition example_state : ServeState example_backends :=
  Build_ServeState example_backends (startup_world example_flags) 0%nat [].

Definition example_digest (instanceName : string) : Digest :=
  {| instance := instanceName; hash := "e3b0c44298fc1c14"; sizeBytes := 0 |}.

(** ** The other two calls of the ByteStream service *)

(** Modelled from the spec: the upload path (section 4.3) gets "a stream
    of byte chunks with explicit offsets"; the server "must track the
    running committed offset per upload session" and "reject
    out-of-order or overlapping writes as protocol errors".  [upload
    committed chunks] is the content received when every chunk starts
    at the committed offset, and [None] otherwise. *)
Fixpoint upload (committed : Z) (chunks : list (Z * Blob)) : option Blob :=
  match chunks with
  | [] => Some []
  | (offset, data) :: chunks' =>
      if (offset =? committed)%Z then
        match upload (committed + Z.of_nat (length data)) chunks' with
        | Some rest => Some (data ++ rest)
        | None => None
        end
      else None
  end.

(** The answer to a Write call: an error status, or the size that was
    committed. *)
Inductive WriteResponse :=
  | WriteFailed (err : Status)
  | WriteCommitted (committedSize : Z).

(** The answer to a QueryWriteStatus call. *)
Record QueryWriteStatusResponse := {
  committedSize : Z;
  complete : bool;
}.

Section bytestream_upload.
Variable B : Backends.

(** The status of a "protocol error", whose code the spec leaves open. *)
Variable protocol_error : Status.

(** Modelled from the spec: the spec names QueryWriteStatus in its RPC
    surface (section 6) and says nothing about what it answers.  It is a
    method of the ByteStream server, which holds a BlobAccess and a
    chunk size and nothing else; what it does with them is a
    parameter. *)
Variable QueryWriteStatus :
  BlobAccess → Z → Digest → Store B → (Status + QueryWriteStatusResponse) * Store B.

(** Modelled from the spec: the upload is "complete only when the
    accumulated byte count equals the digest's declared size — a short
    or over-long stream is an error"; a protocol error is "rejected
    immediately, aborting the session; no partial commit".  A complete
    upload is stored with one [Put] under the digest. *)
Definition ByteStreamServer_Write (srv : ByteStreamServer)
    (d : Digest) (chunks : list (Z * Blob)) (s : ServeState B)
    : WriteResponse * ServeState B :=
  match upload 0 chunks with
  | Some blob =>
      if (Z.of_nat (length blob) =? sizeBytes d)%Z then
        let b := bs_blobAccess srv in
        let '(r, st) := BlobAccess_Put B b d blob (store B s) in
        (match r with
         | Some err => WriteFailed err
         | None => WriteCommitted (sizeBytes d)
         end,
         call B (CallPut b d) (world B s) st (calls B s))
      else (WriteFailed protocol_error, s)
  | None => (WriteFailed protocol_error, s)
  end.

Definition ByteStreamServer_QueryWriteStatus (srv : ByteStreamServer)
    (d : Digest) (s : ServeState B)
    : (Status + QueryWriteStatusResponse) * ServeState B :=
  let '(r, st) :=
    QueryWriteStatus (bs_blobAccess srv) (readChunkSize srv) d (store B s) in
  (r, {| world := world B s; store := st; calls := calls B s |}).

End bytestream_upload.

(** ** The goroutine of the metrics web server

    Lines 50-52 of [main] start a goroutine that runs
    [log.Fatal] on the result of [http.ListenAndServe] at the
    address of the flag [web.listen-address].
    [http.ListenAndServe] returns only with an error, for instance when
    the address cannot be bound; [log.Fatal] then ends the whole
    process with that error as its message, whatever the main goroutine
    is doing at that time.  [main] above is the run of the main
    goroutine; the process is the two together. *)


Section web_server.

(** The result of [http.ListenAndServe] for an address: the error it
    returns with, or [None] when it goes on serving. *)
Variable http_ListenAndServe : string → option error.


End web_server.

(** ** Further notions: the order of a start-up, and more deployments *)

(** Whatever the outcome of [m], the events it adds are the first ones
    of [evs], and all of [evs] when it returns. *)
Definition follows {A} (evs : list Event) (m : M A) : Prop :=
  ∀ w r w', m w = (r, w') →
    ∃ done, trace w' = trace w ++ done
            ∧ done `prefix_of` evs
            ∧ (∀ a, r = inr a → done = evs).

(** The outside world [env] with another answer of [ocagent.NewExporter]. *)
Definition set_ocagent_NewExporter
    (f : string → string → option error) (env : Env) : Env :=
  {| prometheus_exporter_NewExporter := prometheus_exporter_NewExporter env;
     view_Register := view_Register env;
     ocagent_NewExporter := f;
     CreateBlobAccessObjectsFromConfig := CreateBlobAccessObjectsFromConfig env;
     grpc_Dial := grpc_Dial env;
     net_Listen := net_Listen env |}.

(** The events of the RPC server before it serves. *)
Definition rpc_server_trace_listen : list Event :=
  [EvRegister ActionCacheService;
   EvRegister ContentAddressableStorageService;
   EvRegister ByteStreamService;
   EvRegister CapabilitiesService;
   EvRegister ExecutionService;
   EvListen "tcp" ":8980"].

(** The instance names with a scheduler entry. *)
Definition scheduler_instances (flags : Flags) : list string :=
  entry_instance <$> schedulersList flags.

(** The same deployment, where the second scheduler cannot be dialed. *)
Definition example_env_no_dial : Env :=
  {| prometheus_exporter_NewExporter := None;
     view_Register := None;
     ocagent_NewExporter := λ _ _, None;
     CreateBlobAccessObjectsFromConfig := λ _, inr (example_cas, example_ac);
     grpc_Dial := λ target,
       if decide (target = "ubuntu-scheduler:8981")
       then Some "invalid target" else None;
     net_Listen := λ _ _, None |}.

(** The same, where the port of the RPC service is taken. *)
Definition example_env_no_listen : Env :=
  {| prometheus_exporter_NewExporter := None;
     view_Register := None;
     ocagent_NewExporter := λ _ _, None;
     CreateBlobAccessObjectsFromConfig := λ _, inr (example_cas, example_ac);
     grpc_Dial := λ _, None;
     net_Listen := λ _ _, Some "address already in use" |}.

(** The same, where the views cannot be registered. *)
Definition example_env_no_views : Env :=
  {| prometheus_exporter_NewExporter := None;
     view_Register := Some "duplicate view";
     ocagent_NewExporter := λ _ _, None;
     CreateBlobAccessObjectsFromConfig := λ _, inr (example_cas, example_ac);
     grpc_Dial := λ _, None;
     net_Listen := λ _ _, None |}.

(** A deployment without any scheduler or allow-list flag. *)
Definition example_flags_bare : Flags :=
  {| blobstoreConfig := "/config/blobstore.conf";
     webListenAddress := ":80";
     ocagentAddress := "";
     ocagentServiceName := "bb-storage";
     schedulersList := [];
     allowActionCacheUpdatesForInstancesList := [] |}.

(** The deployment of [example_flags] with the allow-list flags given
    in another order and one of them twice. *)
Definition example_flags_reordered : Flags :=
  {| blobstoreConfig := "/config/blobstore.conf";
     webListenAddress := ":80";
     ocagentAddress := "";
     ocagentServiceName := "bb-storage";
     schedulersList := schedulersList example_flags;
     allowActionCacheUpdatesForInstancesList :=
       ["cache-only"; "debian8"; "cache-only"] |}.

(** A deployment where a name of the allow-list has a ['|'] in it. *)
Definition example_flags_bar : Flags :=
  {| blobstoreConfig := "/config/blobstore.conf";
     webListenAddress := ":80";
     ocagentAddress := "";
     ocagentServiceName := "bb-storage";
     schedulersList := ["a|b"; "a|b|c"];
     allowActionCacheUpdatesForInstancesList := ["a|b"] |}.

(** ** The generated descriptor code of [pkg/proto/configuration/tls]

    The part of the generated file that keeps the serialized file
    descriptor: the package variables [..._rawDescOnce] and
    [..._rawDescData], [..._rawDescGZIP] and the two [Descriptor]
    methods.  [protoimpl.X.CompressGZIP] is a parameter, and so are the
    bytes of [..._rawDesc]. *)

Module tls.

(** The package variables the descriptor functions use: whether the
    [sync.Once] has run, and the bytes. *)
Record Package := {
  file_pkg_proto_configuration_tls_tls_proto_rawDescOnce : bool;
  file_pkg_proto_configuration_tls_tls_proto_rawDescData : list Byte.byte;
}.

Section descriptor.
Variable CompressGZIP : list Byte.byte → list Byte.byte.

(** [var ..._rawDescData = ..._rawDesc], with a fresh [sync.Once]. *)
Definition package_init (file_pkg_proto_configuration_tls_tls_proto_rawDesc
    : list Byte.byte) : Package :=
  {| file_pkg_proto_configuration_tls_tls_proto_rawDescOnce := false;
     file_pkg_proto_configuration_tls_tls_proto_rawDescData :=
       file_pkg_proto_configuration_tls_tls_proto_rawDesc |}.

(** [rawDescOnce.Do(func() { rawDescData = CompressGZIP(rawDescData) });
    return rawDescData] *)
Definition file_pkg_proto_configuration_tls_tls_proto_rawDescGZIP (p : Package)
    : list Byte.byte * Package :=
  let p' :=
    if file_pkg_proto_configuration_tls_tls_proto_rawDescOnce p then p
    else
      {| file_pkg_proto_configuration_tls_tls_proto_rawDescOnce := true;
         file_pkg_proto_configuration_tls_tls_proto_rawDescData :=
           CompressGZIP (file_pkg_proto_configuration_tls_tls_proto_rawDescData p) |}
  in
  (file_pkg_proto_configuration_tls_tls_proto_rawDescData p', p').

(** The [Descriptor] method of [ClientConfiguration]. *)
Definition ClientConfiguration_Descriptor (p : Package)
    : (list Byte.byte * list Z) * Package :=
  let '(b, p') := file_pkg_proto_configuration_tls_tls_proto_rawDescGZIP p in
  ((b, [0]), p').

(** The [Descriptor] method of [ServerConfiguration]. *)
Definition ServerConfiguration_Descriptor (p : Package)
    : (list Byte.byte * list Z) * Package :=
  let '(b, p') := file_pkg_proto_configuration_tls_tls_proto_rawDescGZIP p in
  ((b, [1]), p').

(** The two message types of the file. *)
Inductive MessageType := ClientConfiguration | ServerConfiguration.

Definition Descriptor (t : MessageType) (p : Package)
    : (list Byte.byte * list Z) * Package :=
  match t with
  | ClientConfiguration => ClientConfiguration_Descriptor p
  | ServerConfiguration => ServerConfiguration_Descriptor p
  end.

(** The index of a message type in the file. *)
Definition index (t : MessageType) : Z :=
  match t with ClientConfiguration => 0 | ServerConfiguration => 1 end.

(** The answers to a sequence of [Descriptor] calls. *)
Fixpoint Descriptors (ts : list MessageType) (p : Package)
    : list (list Byte.byte * list Z) :=
  match ts with
  | [] => []
  | t :: ts' => let '(d, p') := Descriptor t p in d :: Descriptors ts' p'
  end.

End descriptor.

End tls.

(** ** Facts about [strings.SplitN] on the separator of [main] *)

Example SplitN_pair :
  strings.SplitN "debian8|hostname-of-debian8-scheduler:8981" "|" 2
  = ["debian8"; "hostname-of-debian8-scheduler:8981"].
Proof. reflexivity. Qed.

Example SplitN_no_separator : strings.SplitN "debian8" "|" 2 = ["debian8"].
Proof. reflexivity. Qed.

Example SplitN_more_separators : strings.SplitN "a|b|c" "|" 2 = ["a"; "b|c"].
Proof. reflexivity. Qed.

Example SplitN_empty_entry : strings.SplitN "" "|" 2 = [""].
Proof. reflexivity. Qed.

Example SplitN_all : strings.SplitN "a|b|c" "|" (-1) = ["a"; "b"; "c"].
Proof. reflexivity. Qed.


Section SplitN_bar.
Import strings.

Lemma contains_bar_cons c s :
  contains_bar (String c s) ↔ c = "|"%char ∨ contains_bar s.
Proof.
  unfold contains_bar. cbn [String.list_ascii_of_string].
  rewrite elem_of_cons. split; (intros [H|H]; [by left | by right]).
Qed.

Lemma contains_bar_app a b : contains_bar (a +:+ "|" +:+ b).
Proof.
  induction a as [|c a IH].
  - apply contains_bar_cons. by left.
  - apply contains_bar_cons. by right.
Qed.

Lemma prefix_bar_cons c s :
  String.prefix "|" (String c s) = bool_decide (c = "|"%char).
Proof.
  change (String.prefix "|" (String c s))
    with (if Ascii.ascii_dec "|"%char c then String.prefix "" s else false).
  destruct (Ascii.ascii_dec "|"%char c) as [<-|Hc].
  - by destruct s.
  - by rewrite bool_decide_eq_false_2.
Qed.

Lemma Index_bar_cons c s :
  Index (String c s) "|" =
    if bool_decide (c = "|"%char) then Some O else S <$> Index s "|".
Proof.
  change (Index (String c s) "|")
    with (if String.prefix "|" (String c s) then Some O
          else match Index s "|" with Some i => Some (S i) | None => None end).
  rewrite prefix_bar_cons. case_bool_decide; [done|]. by destruct (Index s "|").
Qed.

Lemma Index_bar_None s : ¬ contains_bar s → Index s "|" = None.
Proof.
  induction s as [|c s IH]; intros Hno; [done|].
  rewrite contains_bar_cons in Hno.
  rewrite Index_bar_cons. case_bool_decide as Hc.
  - destruct Hno. by left.
  - rewrite IH; [done|]. intros H. apply Hno. by right.
Qed.

Lemma Index_bar_Some a b :
  ¬ contains_bar a →
  Index (a +:+ "|" +:+ b) "|" = Some (String.length a).
Proof.
  induction a as [|c a IH]; intros Hno.
  - change ("" +:+ "|" +:+ b) with (String "|" b).
    rewrite Index_bar_cons. by rewrite bool_decide_eq_true_2.
  - change (String c a +:+ "|" +:+ b) with (String c (a +:+ "|" +:+ b)).
    rewrite contains_bar_cons in Hno.
    rewrite Index_bar_cons. case_bool_decide as Hc.
    + destruct Hno. by left.
    + rewrite IH; [done|]. intros H. apply Hno. by right.
Qed.

Lemma upto_app a b : upto (String.length a) (a +:+ b) = a.
Proof.
  unfold upto. induction a as [|c a IH].
  - by destruct b.
  - change (String.substring 0 (String.length (String c a)) (String c a +:+ b))
      with (String c (String.substring 0 (String.length a) (a +:+ b))).
    by rewrite IH.
Qed.

Lemma from_app_bar a b : from (String.length a + 1) (a +:+ "|" +:+ b) = b.
Proof.
  induction a as [|c a IH]; cbn; [done|]. apply IH.
Qed.

Lemma SplitN_bar_2 s :
  SplitN s "|" 2 =
    genSplit_loop (Z.to_nat (Z.min 2 (Z.of_nat (String.length s) + 1) - 1)) s "|".
Proof. unfold SplitN. by destruct (decide ("|" = "")). Qed.

(** An entry without the separator stays in one piece. *)
Lemma SplitN_no_bar s : ¬ contains_bar s → SplitN s "|" 2 = [s].
Proof.
  intros Hno. rewrite SplitN_bar_2.
  destruct (Z.to_nat _) as [|k]; [done|].
  cbn [genSplit_loop]. by rewrite Index_bar_None.
Qed.

(** An entry with the separator is cut at its first occurrence, in
    two pieces. *)
Lemma SplitN_bar a b :
  ¬ contains_bar a → SplitN (a +:+ "|" +:+ b) "|" 2 = [a; b].
Proof.
  intros Hno. rewrite SplitN_bar_2.
  replace (Z.to_nat _) with 1%nat.
  - cbn [genSplit_loop]. rewrite Index_bar_Some by done.
    rewrite upto_app. cbn [String.length]. by rewrite from_app_bar.
  - assert (1 ≤ String.length (a +:+ "|" +:+ b))%nat.
    { clear. destruct a as [|c a].
      - change (1 ≤ S (String.length b))%nat. lia.
      - change (1 ≤ S (String.length (a +:+ "|" +:+ b)))%nat. lia. }
    lia.
Qed.

(** Every string either has no separator or is cut at its first one. *)
Lemma first_bar s :
  ¬ contains_bar s ∨ ∃ a b, s = a +:+ "|" +:+ b ∧ ¬ contains_bar a.
Proof.
  induction s as [|c s IH].
  - left. by intros ?%elem_of_nil.
  - destruct (decide (c = "|"%char)) as [->|Hc].
    + right. exists "", s. split; [done|]. by intros ?%elem_of_nil.
    + destruct IH as [Hno|(a & b & -> & Hno)].
      * left. rewrite contains_bar_cons. by intros [?|?].
      * right. exists (String c a), b. split; [done|].
        rewrite contains_bar_cons. by intros [?|?].
Qed.

Lemma SplitN_length_2 s :
  length (SplitN s "|" 2) = 2%nat ↔ contains_bar s.
Proof.
  destruct (first_bar s) as [Hno|(a & b & -> & Hno)].
  - rewrite SplitN_no_bar by done. by split.
  - rewrite SplitN_bar by done. split; [|done]. intros _. apply contains_bar_app.
Qed.

End SplitN_bar.

(** ** The definitions at work *)

Example main_serves :
  main example_env example_flags World0
  = (inr (registered example_cas example_ac), startup_world example_flags).
Proof. vm_compute. reflexivity. Qed.

Example main_serves_trace :
  trace (startup_world example_flags)
  = [EvGoListenAndServe ":80"; EvNewPrometheusExporter; EvViewRegister;
     EvCreateBlobAccessObjectsFromConfig "/config/blobstore.conf";
     EvNewNonExecutableBuildQueue 0;
     EvDial "old-scheduler:8981"; EvDial "ubuntu-scheduler:8981";
     EvDial "new|scheduler:8981";
     EvRegister ActionCacheService; EvRegister ContentAddressableStorageService;
     EvRegister ByteStreamService; EvRegister CapabilitiesService;
     EvRegister ExecutionService; EvListen "tcp" ":8980"; EvServe].
Proof. vm_compute. reflexivity. Qed.

Example main_serves_table :
  (λ i, schedulers (startup_world example_flags) !! i)
    <$> ["cache-only"; "debian8"; "ubuntu"; "windows"]
  = [Some (NonExecutableBuildQueue 0);
     Some (ForwardingBuildQueue 6
             {| conn_addr := 5; conn_target := "new|scheduler:8981" |});
     Some (ForwardingBuildQueue 4
             {| conn_addr := 3; conn_target := "ubuntu-scheduler:8981" |});
     None].
Proof. vm_compute. reflexivity. Qed.

Example main_invalid_entry_fatal :
  (main example_env example_flags_invalid World0).1
  = inl "Invalid scheduler entry: debian8".
Proof. vm_compute. reflexivity. Qed.

Example main_invalid_entry_trace :
  trace (main example_env example_flags_invalid World0).2
  = [EvGoListenAndServe ":80"; EvNewPrometheusExporter; EvViewRegister;
     EvCreateBlobAccessObjectsFromConfig "/config/blobstore.conf";
     EvNewNonExecutableBuildQueue 0; EvDial "ubuntu-scheduler:8981"].
Proof. vm_compute. reflexivity. Qed.

Example main_no_storage_fatal :
  main example_env_no_storage example_flags World0
  = (inl "Failed to create blob access: open: no such file",
     with_trace World0
       [EvGoListenAndServe ":80"; EvNewPrometheusExporter; EvViewRegister;
        EvCreateBlobAccessObjectsFromConfig "/config/blobstore.conf"]).
Proof. vm_compute. reflexivity. Qed.

Example chunks_of_five :
  chunks 2 [Byte.x01; Byte.x02; Byte.x03; Byte.x04; Byte.x05]
  = [[Byte.x01; Byte.x02]; [Byte.x03; Byte.x04]; [Byte.x05]].
Proof. reflexivity. Qed.

Example serve_some_calls :
  (serve example_backends (registered example_cas example_ac)
     [Execute (example_digest "windows");
      GetCapabilities "cache-only";
      Execute (example_digest "cache-only");
      UpdateActionResult (example_digest "ubuntu") [];
      UpdateActionResult (example_digest "debian8") []]
     example_state).*1
  = [Failed (status_Errorf InvalidArgument "Unknown instance name");
     Capabilities {| cacheCapabilities := true; execEnabled := false |};
     Failed (status_Errorf Unimplemented
               "This service does not support remote execution");
     Failed (status_Errorf PermissionDenied
               "This service can only be used to get action results");
     ActionResult []].
Proof. vm_compute. reflexivity. Qed.

(** ** Running the start-up monad *)

(** Closes a goal [x ∉ l] or [¬ contains_bar s] on a concrete list. *)
Ltac not_in_list :=
  let H := fresh in
  vm_compute; intros H;
  repeat (apply elem_of_cons in H as [?|H]; [done|]);
  by apply elem_of_nil in H.


Lemma bind_run {A B} (m : M A) (f : A → M B) w :
  (m ≫= f) w =
    match m w with
    | (inl msg, w') => (inl msg, w')
    | (inr a, w') => f a w'
    end.
Proof. reflexivity. Qed.

Lemma bind_ok {A B} (m : M A) (f : A → M B) w b w' :
  (m ≫= f) w = (inr b, w') ↔ ∃ a w1, m w = (inr a, w1) ∧ f a w1 = (inr b, w').
Proof.
  rewrite bind_run. destruct (m w) as [[msg|a] w1]; split.
  - done.
  - by intros (? & ? & ? & ?).
  - intros H. by exists a, w1.
  - by intros (? & ? & [= -> ->] & ?).
Qed.

Lemma bind_fatal {A B} (m : M A) (f : A → M B) w msg w' :
  (m ≫= f) w = (inl msg, w') ↔
    m w = (inl msg, w') ∨ ∃ a w1, m w = (inr a, w1) ∧ f a w1 = (inl msg, w').
Proof.
  rewrite bind_run. destruct (m w) as [[msg1|a] w1]; split.
  - intros [= -> ->]. by left.
  - by intros [[= -> ->]|(? & ? & ? & ?)].
  - intros H. right. by exists a, w1.
  - by intros [?|(? & ? & [= -> ->] & ?)].
Qed.

(** ** The two passes over the routing table *)

Section passes.
Variable env : Env.

Lemma fallback_body_run fallback i w :
  (store_schedulers i fallback;;
   store_allowActionCacheUpdatesForInstances i true) w
  = (inr tt,
     {| schedulers := <[i := fallback]> (schedulers w);
        allowActionCacheUpdatesForInstances :=
          <[i := true]> (allowActionCacheUpdatesForInstances w);
        next_addr := next_addr w;
        trace := trace w |}).
Proof. reflexivity. Qed.

Lemma range_fallback fallback l w :
  range l (λ instance,
    store_schedulers instance fallback;;
    store_allowActionCacheUpdatesForInstances instance true) w
  = (inr tt,
     {| schedulers := fallbacks fallback l (schedulers w);
        allowActionCacheUpdatesForInstances :=
          allowed l (allowActionCacheUpdatesForInstances w);
        next_addr := next_addr w;
        trace := trace w |}).
Proof.
  revert w. induction l as [|i l IH]; intros w; [by destruct w|].
  cbn [range]. rewrite bind_run, fallback_body_run. by rewrite IH.
Qed.

Lemma fallback_pass_run l w :
  fallback_pass l w
  = (inr tt,
     if decide (0 < length l)%nat then
       {| schedulers :=
            fallbacks (NonExecutableBuildQueue (next_addr w)) l (schedulers w);
          allowActionCacheUpdatesForInstances :=
            allowed l (allowActionCacheUpdatesForInstances w);
          next_addr := S (next_addr w);
          trace := trace w ++ [EvNewNonExecutableBuildQueue (next_addr w)] |}
     else w).
Proof.
  unfold fallback_pass. case_decide; [|done].
  rewrite bind_run.
  change (NewNonExecutableBuildQueue w)
    with (inr (B:=BuildQueue) (A:=string) (NonExecutableBuildQueue (next_addr w)),
          {| schedulers := schedulers w;
             allowActionCacheUpdatesForInstances :=
               allowActionCacheUpdatesForInstances w;
             next_addr := S (next_addr w);
             trace := trace w ++ [EvNewNonExecutableBuildQueue (next_addr w)] |}).
  cbv beta iota. by rewrite range_fallback.
Qed.

Lemma scheduler_body_run e w :
  scheduler_body env e w =
    if decide (contains_bar e) then
      match grpc_Dial env (entry_endpoint e) with
      | Some err =>
          (inl ("Failed to create scheduler RPC client: " +:+ err),
           {| schedulers := schedulers w;
              allowActionCacheUpdatesForInstances :=
                allowActionCacheUpdatesForInstances w;
              next_addr := next_addr w;
              trace := trace w ++ [EvDial (entry_endpoint e)] |})
      | None =>
          (inr tt,
           {| schedulers :=
                <[entry_instance e :=
                    ForwardingBuildQueue (S (next_addr w))
                      {| conn_addr := next_addr w;
                         conn_target := entry_endpoint e |}]> (schedulers w);
              allowActionCacheUpdatesForInstances :=
                allowActionCacheUpdatesForInstances w;
              next_addr := S (S (next_addr w));
              trace := trace w ++ [EvDial (entry_endpoint e)] |})
      end
    else (inl ("Invalid scheduler entry: " +:+ e), w).
Proof.
  unfold scheduler_body, entry_instance, entry_endpoint.
  rewrite bind_run.
  destruct (decide (contains_bar e)) as [Hbar|Hbar].
  - rewrite decide_False by (by intros []; apply SplitN_length_2).
    generalize (strings.SplitN e "|" 2 !!! 1%nat) (strings.SplitN e "|" 2 !!! 0%nat).
    intros target i. unfold Dial.
    by destruct (grpc_Dial env target).
  - rewrite decide_True by (by rewrite SplitN_length_2).
    reflexivity.
Qed.

End passes.

(** ** The four parts of [main] *)

Lemma with_trace_app w e1 e2 :
  with_trace (with_trace w e1) e2 = with_trace w (e1 ++ e2).
Proof. unfold with_trace. cbn. by rewrite app_assoc. Qed.

Lemma emit_bind_run {B} ev (f : unit → M B) w :
  (emit ev ≫= f) w = f tt (with_trace w [ev]).
Proof. reflexivity. Qed.

Lemma fatal_on_bind_run {B} prefix err (f : unit → M B) w :
  (fatal_on prefix err ≫= f) w =
    match err with
    | Some e => (inl (prefix +:+ e), w)
    | None => f tt w
    end.
Proof. by destruct err. Qed.

Section parts.
Variable env : Env.

Lemma observability_ok flags w w' :
  observability env flags w = (inr tt, w') ↔
    prometheus_exporter_NewExporter env = None
    ∧ view_Register env = None
    ∧ (ocagentAddress flags ≠ "" →
       ocagent_NewExporter env (ocagentAddress flags) (ocagentServiceName flags)
       = None)
    ∧ w' = with_trace w (observability_trace flags).
Proof.
  unfold observability, observability_trace.
  rewrite !emit_bind_run, fatal_on_bind_run.
  destruct (prometheus_exporter_NewExporter env) as [e1|]; [naive_solver|].
  rewrite emit_bind_run, fatal_on_bind_run.
  destruct (view_Register env) as [e2|]; [naive_solver|].
  rewrite !with_trace_app.
  case_decide as Hoc.
  - rewrite emit_bind_run, with_trace_app.
    destruct (ocagent_NewExporter env _ _) as [e3|];
      unfold fatal_on, log_Fatal, mret, M_ret; cbn; naive_solver.
  - unfold mret, M_ret. cbn. naive_solver.
Qed.

Lemma storage_access_ok flags w handles w' :
  storage_access env flags w = (inr handles, w') ↔
    CreateBlobAccessObjectsFromConfig env (blobstoreConfig flags) = inr handles
    ∧ w' = with_trace w [EvCreateBlobAccessObjectsFromConfig (blobstoreConfig flags)].
Proof.
  unfold storage_access. rewrite emit_bind_run.
  destruct (CreateBlobAccessObjectsFromConfig env _) as [err|h];
    unfold log_Fatal, mret, M_ret; naive_solver.
Qed.

Lemma scheduler_pass_ok l w w' :
  scheduler_pass env l w = (inr tt, w') ↔
    Forall (passes env) l
    ∧ w' = {| schedulers := forwarders (next_addr w) l (schedulers w);
              allowActionCacheUpdatesForInstances :=
                allowActionCacheUpdatesForInstances w;
              next_addr := (next_addr w + 2 * length l)%nat;
              trace := trace w ++ (EvDial ∘ entry_endpoint <$> l) |}.
Proof.
  unfold scheduler_pass. revert w. induction l as [|e l IH]; intros w.
  - cbn. unfold mret, M_ret. rewrite Nat.add_0_r, app_nil_r.
    destruct w; cbn. split; [intros [= <-]|intros [_ ->]]; done.
  - cbn [range]. rewrite bind_run, scheduler_body_run, Forall_cons.
    unfold passes at 1. case_decide as Hbar; [|naive_solver].
    destruct (grpc_Dial env (entry_endpoint e)) as [err|]; [naive_solver|].
    rewrite IH. cbn [forwarders schedulers allowActionCacheUpdatesForInstances
                     next_addr trace length fmap list_fmap].
    rewrite <- app_assoc.
    replace (S (S (next_addr w)) + 2 * length l)%nat
      with (next_addr w + 2 * S (length l))%nat by lia.
    naive_solver.
Qed.

Lemma tables_ok flags w w' :
  next_addr w = 0%nat →
  tables env flags w = (inr tt, w') ↔
    Forall (passes env) (schedulersList flags)
    ∧ w' = {| schedulers := schedulers (startup_world flags);
              allowActionCacheUpdatesForInstances :=
                allowActionCacheUpdatesForInstances (startup_world flags);
              next_addr := next_addr (startup_world flags);
              trace :=
                trace w
                ++ (if decide (0 < length (allowActionCacheUpdatesForInstancesList flags))%nat
                    then [EvNewNonExecutableBuildQueue 0] else [])
                ++ (EvDial ∘ entry_endpoint <$> schedulersList flags) |}.
Proof.
  intros Hw. unfold tables.
  change ((make_schedulers ≫= ?f) w) with (f tt (make_schedulers w).2).
  cbv beta.
  change ((make_allowActionCacheUpdatesForInstances ≫= ?f) ?v)
    with (f tt (make_allowActionCacheUpdatesForInstances v).2).
  cbv beta. rewrite bind_run, fallback_pass_run, scheduler_pass_ok.
  unfold startup_world, first_scheduler_addr.
  cbn [snd make_schedulers make_allowActionCacheUpdatesForInstances
       schedulers allowActionCacheUpdatesForInstances next_addr trace].
  rewrite Hw. case_decide;
    cbn [schedulers allowActionCacheUpdatesForInstances next_addr trace].
  - rewrite <- app_assoc. naive_solver.
  - destruct (allowActionCacheUpdatesForInstancesList flags); [|cbn in *; lia].
    cbn. naive_solver.
Qed.

Lemma rpc_server_ok cas acb w g w' :
  rpc_server env cas acb w = (inr g, w') ↔
    net_Listen env "tcp" ":8980" = None
    ∧ g = registered cas acb
    ∧ w' = with_trace w rpc_server_trace.
Proof.
  unfold rpc_server, RegisterActionCacheServer,
    RegisterContentAddressableStorageServer, RegisterByteStreamServer,
    RegisterCapabilitiesServer, RegisterExecutionServer.
  destruct (net_Listen env "tcp" ":8980") as [err|].
  - cbv [mbind M_bind mret M_ret emit fatal_on log_Fatal].
    split; [done|by intros [? _]].
  - replace (with_trace w rpc_server_trace)
      with (with_trace (with_trace (with_trace (with_trace (with_trace
             (with_trace (with_trace w [EvRegister ActionCacheService])
                [EvRegister ContentAddressableStorageService])
                [EvRegister ByteStreamService])
                [EvRegister CapabilitiesService])
                [EvRegister ExecutionService])
                [EvListen "tcp" ":8980"])
                [EvServe])
      by (by rewrite !with_trace_app).
    cbv [mbind M_bind mret M_ret emit fatal_on log_Fatal].
    unfold registered, with_trace. cbn. naive_solver.
Qed.

(** A start-up that serves: exactly when no call fails, and then with
    this server and in this state. *)
Lemma main_ok flags g w :
  main env flags World0 = (inr g, w) ↔
    startup_ok env flags
    ∧ (∃ cas acb,
         CreateBlobAccessObjectsFromConfig env (blobstoreConfig flags)
         = inr (cas, acb)
         ∧ g = registered cas acb)
    ∧ w = startup_world flags.
Proof.
  unfold main, startup_ok. rewrite bind_ok. split.
  - intros ([] & w1 & (Hp & Hv & Ho & ->)%observability_ok & H).
    apply bind_ok in H as ([cas acb] & w2 & (Hc & ->)%storage_access_ok & H).
    apply bind_ok in H as ([] & w3 & Ht & H).
    apply tables_ok in Ht as [Hs ->]; [|done].
    apply rpc_server_ok in H as (Hl & -> & ->).
    split_and!; eauto.
    unfold with_trace, startup_world, startup_trace. cbn.
    by rewrite <- !app_assoc.
  - intros ((Hp & Hv & Ho & _ & Hs & Hl) & (cas & acb & Hc & ->) & ->).
    eexists tt, _. split; [by apply observability_ok|].
    apply bind_ok. eexists (cas, acb), _. split; [by apply storage_access_ok|].
    apply bind_ok. eexists tt, _. split; [by apply tables_ok|].
    apply rpc_server_ok. split_and!; [done..|].
    unfold with_trace, startup_world, startup_trace. cbn.
    by rewrite <- !app_assoc.
Qed.

End parts.

(** ** Reading the tables *)

Lemma fallbacks_lookup fallback l m i :
  fallbacks fallback l m !! i = if decide (i ∈ l) then Some fallback else m !! i.
Proof.
  unfold fallbacks. revert m. induction l as [|j l IH]; intros m; cbn [foldl].
  - rewrite decide_False; [done|]. apply not_elem_of_nil.
  - rewrite IH. destruct (decide (i ∈ l)) as [Hin|Hin].
    + rewrite decide_True; [done|]. by right.
    + destruct (decide (i = j)) as [->|Hne].
      * rewrite lookup_insert_eq, decide_True; [done|]. by left.
      * rewrite lookup_insert_ne by done. rewrite decide_False; [done|].
        rewrite elem_of_cons. by intros [?|?].
Qed.

Lemma allowed_lookup l m i :
  allowed l m !! i = if decide (i ∈ l) then Some true else m !! i.
Proof.
  unfold allowed. revert m. induction l as [|j l IH]; intros m; cbn [foldl].
  - rewrite decide_False; [done|]. apply not_elem_of_nil.
  - rewrite IH. destruct (decide (i ∈ l)) as [Hin|Hin].
    + rewrite decide_True; [done|]. by right.
    + destruct (decide (i = j)) as [->|Hne].
      * rewrite lookup_insert_eq, decide_True; [done|]. by left.
      * rewrite lookup_insert_ne by done. rewrite decide_False; [done|].
        rewrite elem_of_cons. by intros [?|?].
Qed.

Lemma forwarders_lookup_other n l m i :
  Forall (λ e, entry_instance e ≠ i) l → forwarders n l m !! i = m !! i.
Proof.
  intros H. revert n m. induction H as [|e l He _ IH]; intros n m; [done|].
  cbn [forwarders]. rewrite IH. by rewrite lookup_insert_ne.
Qed.

Lemma forwarders_app n l1 l2 m :
  forwarders n (l1 ++ l2) m
  = forwarders (n + 2 * length l1) l2 (forwarders n l1 m).
Proof.
  revert n m. induction l1 as [|e l1 IH]; intros n m; cbn [forwarders app length].
  - by rewrite Nat.add_0_r.
  - rewrite IH. f_equal. lia.
Qed.

(** The last entry for an instance decides its queue. *)
Lemma forwarders_lookup_last n pre e post m :
  Forall (λ e', entry_instance e' ≠ entry_instance e) post →
  forwarders n (pre ++ e :: post) m !! entry_instance e
  = Some (ForwardingBuildQueue (S (n + 2 * length pre))
            {| conn_addr := (n + 2 * length pre)%nat;
               conn_target := entry_endpoint e |}).
Proof.
  intros Hpost. rewrite forwarders_app. cbn [forwarders].
  rewrite forwarders_lookup_other by done. by rewrite lookup_insert_eq.
Qed.

(** Every queue the scheduler loop stores is a forwarding queue. *)
Lemma forwarders_lookup_cases n l m i :
  forwarders n l m !! i = m !! i
  ∨ ∃ a conn, forwarders n l m !! i = Some (ForwardingBuildQueue a conn).
Proof.
  revert n m. induction l as [|e l IH]; intros n m; [by left|].
  cbn [forwarders].
  destruct (IH (S (S n)) (<[entry_instance e :=
    ForwardingBuildQueue (S n)
      {| conn_addr := n; conn_target := entry_endpoint e |}]> m)) as [->|?];
    [|by right].
  destruct (decide (entry_instance e = i)) as [->|Hne].
  - right. rewrite lookup_insert_eq. eauto.
  - left. by rewrite lookup_insert_ne.
Qed.

(** ** What a part of [main] can emit *)

Lemma emits_ret {A} P (a : A) : emits P (mret a).
Proof. intros w r w' [= <- <-]. exists []. by rewrite app_nil_r. Qed.

Lemma emits_log_Fatal {A} P msg : emits P (log_Fatal (A:=A) msg).
Proof. intros w r w' [= <- <-]. exists []. by rewrite app_nil_r. Qed.

Lemma emits_emit (P : Event → Prop) ev : P ev → emits P (emit ev).
Proof. intros H w r w' [= <- <-]. exists [ev]. split; [done|]. by constructor. Qed.

Lemma emits_state {A} P (m : M A) :
  (∀ w, trace (m w).2 = trace w) → emits P m.
Proof.
  intros H w r w' Hm. exists []. rewrite app_nil_r.
  specialize (H w). by rewrite Hm in H.
Qed.

Lemma emits_bind {A B} P (m : M A) (f : A → M B) :
  emits P m → (∀ a, emits P (f a)) → emits P (m ≫= f).
Proof.
  intros Hm Hf w r w'. rewrite bind_run.
  destruct (m w) as [[msg|a] w1] eqn:E.
  - intros [= <- <-]. by apply (Hm _ _ _ E).
  - intros Hfa. destruct (Hm _ _ _ E) as (e1 & H1 & HP1).
    destruct (Hf _ _ _ _ Hfa) as (e2 & H2 & HP2).
    exists (e1 ++ e2). split; [by rewrite H2, H1, <- app_assoc|].
    by apply Forall_app.
Qed.

Lemma emits_fatal_on P prefix err : emits P (fatal_on prefix err).
Proof. destruct err; [apply emits_log_Fatal | apply emits_ret]. Qed.

Lemma emits_range {A} P (l : list A) (body : A → M unit) :
  (∀ x, emits P (body x)) → emits P (range l body).
Proof.
  intros H. induction l as [|x l IH]; [apply emits_ret|].
  cbn [range]. apply emits_bind; [apply H | by intros _].
Qed.

(** The first three parts of [main] neither register a service nor
    serve. *)
Lemma emits_early env flags :
  emits (λ ev, ¬ rpc_event ev)
    (observability env flags;; h ← storage_access env flags;
     tables env flags;; mret h).
Proof.
  repeat first
    [ apply emits_bind; [|intros ?]
    | apply emits_ret | apply emits_log_Fatal | apply emits_fatal_on
    | apply emits_emit; by intros []
    | by apply emits_state
    | progress unfold observability, storage_access, tables, fallback_pass,
        scheduler_pass, scheduler_body, Dial, NewNonExecutableBuildQueue,
        NewForwardingBuildQueue
    | apply emits_range; intros ?
    | case_decide
    | case_match ].
Qed.

(** ** A start-up that ends in [log.Fatal] *)

Section fatal.
Variable env : Env.

Lemma main_split flags w :
  main env flags w =
    ((observability env flags;; h ← storage_access env flags;
      tables env flags;; mret h)
     ≫= λ '(cas, acb), rpc_server env cas acb) w.
Proof.
  unfold main. rewrite !bind_run.
  destruct (observability env flags w) as [[?|[]] w1]; [done|].
  rewrite !bind_run.
  destruct (storage_access env flags w1) as [[?|[cas acb]] w2]; [done|].
  rewrite !bind_run.
  by destruct (tables env flags w2) as [[?|[]] w3].
Qed.

Lemma rpc_server_fatal cas acb w msg w' :
  rpc_server env cas acb w = (inl msg, w') →
  (∃ err, net_Listen env "tcp" ":8980" = Some err
          ∧ msg = "Failed to create listening socket: " +:+ err)
  ∧ trace w' =
      trace w ++ [EvRegister ActionCacheService;
                  EvRegister ContentAddressableStorageService;
                  EvRegister ByteStreamService;
                  EvRegister CapabilitiesService;
                  EvRegister ExecutionService;
                  EvListen "tcp" ":8980"].
Proof.
  unfold rpc_server, RegisterActionCacheServer,
    RegisterContentAddressableStorageServer, RegisterByteStreamServer,
    RegisterCapabilitiesServer, RegisterExecutionServer.
  cbv [mbind M_bind mret M_ret emit fatal_on log_Fatal].
  destruct (net_Listen env "tcp" ":8980") as [err|]; [|done].
  intros [= <- <-]. split; [by eauto|]. cbn. by rewrite <- !app_assoc.
Qed.

(** A start-up that ends in [log.Fatal] has not begun to serve; unless
    it is the listening socket that failed, it has not registered a
    service either. *)
Lemma main_fatal flags msg w :
  main env flags World0 = (inl msg, w) →
  ¬ serving w
  ∧ (Forall (λ ev, ¬ rpc_event ev) (trace w)
     ∨ ∃ err, net_Listen env "tcp" ":8980" = Some err
              ∧ msg = "Failed to create listening socket: " +:+ err).
Proof.
  rewrite main_split. intros [H|([cas acb] & w1 & H1 & H2)]%bind_fatal.
  - apply emits_early in H as (evs & Hw & Hevs). cbn [trace World0 app] in Hw.
    rewrite Hw. split; [|by left]. unfold serving. rewrite Hw.
    intros Hin. rewrite Forall_forall in Hevs. by apply (Hevs EvServe).
  - apply emits_early in H1 as (evs & Hw1 & Hevs). cbn [trace World0 app] in Hw1.
    apply rpc_server_fatal in H2 as [Herr Hw]. split; [|by right].
    unfold serving. rewrite Hw, Hw1, elem_of_app. intros [Hin|Hin].
    + rewrite Forall_forall in Hevs. by apply (Hevs EvServe).
    + by repeat (apply elem_of_cons in Hin as [?|Hin]; [done|]);
        apply elem_of_nil in Hin.
Qed.

(** The start-up either ends in [log.Fatal] or serves. *)
Lemma main_outcome flags :
  (∃ msg w, main env flags World0 = (inl msg, w))
  ∨ (∃ g w, main env flags World0 = (inr g, w)).
Proof. destruct (main env flags World0) as [[msg|g] w]; eauto. Qed.

(** The loop stops at the first entry without a separator. *)
Lemma scheduler_pass_invalid pre e post w :
  Forall (passes env) pre → ¬ contains_bar e →
  ∃ w', scheduler_pass env (pre ++ e :: post) w
        = (inl ("Invalid scheduler entry: " +:+ e), w')
        ∧ trace w' = trace w ++ (EvDial ∘ entry_endpoint <$> pre).
Proof.
  intros Hpre He. revert w.
  induction Hpre as [|x pre [Hx Hd] _ IH]; intros w.
  - exists w. unfold scheduler_pass. cbn [app range].
    rewrite bind_run, scheduler_body_run, decide_False by done.
    by rewrite app_nil_r.
  - unfold scheduler_pass in *. cbn [app range].
    rewrite bind_run, scheduler_body_run, decide_True, Hd by done.
    edestruct IH as (w' & -> & Hw'). eexists; split; [done|].
    rewrite Hw'. cbn. by rewrite <- app_assoc.
Qed.

End fatal.

(** ** The lookup closure and unknown instances *)

Lemma lookup_None i w :
  schedulers w !! i = None →
  lookup i w = (inl (status_Errorf InvalidArgument "Unknown instance name"), w).
Proof. intros H. unfold lookup. by rewrite H. Qed.

Lemma lookup_Some i w q :
  schedulers w !! i = Some q → lookup i w = (inr q, w).
Proof. intros H. unfold lookup. by rewrite H. Qed.

(** The closure reads the table and leaves the state as it is. *)
Lemma lookup_reads i w : (lookup i w).2 = w.
Proof. unfold lookup. by destruct (schedulers w !! i). Qed.

(** An instance with a scheduler entry has a forwarding queue. *)
Lemma forwarders_lookup_some n l m i :
  Exists (λ e, entry_instance e = i) l →
  ∃ a conn, forwarders n l m !! i = Some (ForwardingBuildQueue a conn).
Proof.
  revert n m. induction l as [|e l IH]; intros n m Hex.
  - by apply Exists_nil in Hex.
  - cbn [forwarders].
    destruct (forwarders_lookup_cases (S (S n)) l
                (<[entry_instance e :=
                     ForwardingBuildQueue (S n)
                       {| conn_addr := n; conn_target := entry_endpoint e |}]> m) i)
      as [Heq|?]; [|done].
    apply Exists_cons in Hex as [<-|Hex]; [|by apply IH].
    rewrite Heq, lookup_insert_eq. eauto.
Qed.

(** The keys of the routing table of a start-up that serves. *)
Lemma startup_schedulers_None flags i :
  schedulers (startup_world flags) !! i = None ↔
    (i ∉ allowActionCacheUpdatesForInstancesList flags)
    ∧ Forall (λ e, entry_instance e ≠ i) (schedulersList flags).
Proof.
  cbn [startup_world schedulers]. split.
  - intros H.
    assert (Forall (λ e, entry_instance e ≠ i) (schedulersList flags)) as Hs.
    { destruct (decide (Exists (λ e, entry_instance e = i) (schedulersList flags)))
        as [Hex|Hno].
      - eapply forwarders_lookup_some in Hex as (a & conn & Hex).
        by rewrite Hex in H.
      - apply not_Exists_Forall in Hno; [exact Hno | solve_decision]. }
    split; [|done]. rewrite forwarders_lookup_other, fallbacks_lookup in H by done.
    by case_decide.
  - intros [Ha Hs]. rewrite forwarders_lookup_other, fallbacks_lookup by done.
    by rewrite decide_False.
Qed.

(** C1 — For an instance name that is not a key of the routing table,
    the lookup closure handed to the demultiplexing build queue returns
    the "invalid argument" error with the text "Unknown instance name"
    and no queue; an Execute call for such an instance, served by the
    server [main] built, fails with that error and leaves the state of
    the service as it was: no call has reached a backend queue. *)
Theorem unknown_instance_invalid_argument
    (B : Backends) env flags g w (d : Digest) (s : ServeState B) :
  main env flags World0 = (inr g, w) →
  world B s = w →
  schedulers w !! instance d = None →
  executionServer g = Some (NewDemultiplexingBuildQueue lookup)
  ∧ (instance d ∉ allowActionCacheUpdatesForInstancesList flags)
  ∧ Forall (λ e, entry_instance e ≠ instance d) (schedulersList flags)
  ∧ lookup (instance d) (world B s)
    = (inl (status_Errorf InvalidArgument "Unknown instance name"), world B s)
  ∧ handle B g (Execute d) s
    = (Failed (status_Errorf InvalidArgument "Unknown instance name"), s)
  ∧ calls B (handle B g (Execute d) s).2 = calls B s.
Proof.
  intros (_ & (cas & acb & _ & ->) & ->)%main_ok Hs Hnone.
  split; [done|].
  destruct (startup_schedulers_None flags (instance d)) as [Hkeys _].
  destruct (Hkeys Hnone) as [Hallow Hsched]. do 2 (split; [done|]).
  rewrite <- Hs in Hnone. split; [by apply lookup_None|].
  assert (handle B (registered cas acb) (Execute d) s
          = (Failed (status_Errorf InvalidArgument "Unknown instance name"), s)) as ->.
  { cbn [handle registered executionServer on_service].
    unfold DemultiplexingBuildQueue_Execute. cbn [getBackend].
    rewrite lookup_None by done. by destruct s. }
  done.
Qed.

Lemma unknown_instance_invalid_argument_witness :
  handle example_backends (registered example_cas example_ac)
    (Execute (example_digest "windows")) example_state
  = (Failed (status_Errorf InvalidArgument "Unknown instance name"), example_state).
Proof.
  apply (unknown_instance_invalid_argument example_backends example_env
           example_flags (registered example_cas example_ac)
           (startup_world example_flags) (example_digest "windows") example_state);
    [vm_compute; reflexivity | reflexivity | vm_compute; reflexivity].
Defined.

(** ** Reading the trace of a start-up that serves *)

Lemma omap_dial_events {A} (f : Event → option A) (l : list string) :
  omap f (EvDial ∘ entry_endpoint <$> l) = omap (f ∘ EvDial ∘ entry_endpoint) l.
Proof. induction l as [|e l IH]; [done|]. cbn. by rewrite IH. Qed.

Lemma omap_none {A B} (l : list A) : omap (λ _ : A, @None B) l = [].
Proof. by induction l. Qed.

Lemma omap_some {A B} (f : A → B) (l : list A) : omap (Some ∘ f) l = f <$> l.
Proof. induction l as [|x l IH]; [done|]. cbn. by rewrite IH. Qed.

Lemma dials_startup flags :
  dials (startup_trace flags) = entry_endpoint <$> schedulersList flags.
Proof.
  unfold dials, startup_trace, observability_trace.
  rewrite !omap_app, omap_dial_events.
  change (omap _ (schedulersList flags))
    with (omap (Some ∘ entry_endpoint) (schedulersList flags)).
  rewrite omap_some. do 2 case_decide; cbn; by rewrite app_nil_r.
Qed.

Lemma fallbacks_created_startup flags :
  fallbacks_created (startup_trace flags) =
    if decide (0 < length (allowActionCacheUpdatesForInstancesList flags))%nat
    then [0%nat] else [].
Proof.
  unfold fallbacks_created, startup_trace, observability_trace.
  rewrite !omap_app, omap_dial_events.
  change (omap _ (schedulersList flags))
    with (omap (λ _ : string, @None nat) (schedulersList flags)).
  rewrite omap_none. by do 2 case_decide.
Qed.

Lemma resolutions_startup flags :
  resolutions (startup_trace flags) = [blobstoreConfig flags].
Proof.
  unfold resolutions, startup_trace, observability_trace.
  rewrite !omap_app, omap_dial_events.
  change (omap _ (schedulersList flags))
    with (omap (λ _ : string, @None string) (schedulersList flags)).
  rewrite omap_none. by do 2 case_decide.
Qed.

(** ** The routing table *)

(** C2 — The routing table is built in two passes.  The first maps
    every instance of the allow-list to one shared non-executable queue
    (a single queue is created, at address 0); the second lets every
    scheduler entry overwrite the mapping of its instance with a
    forwarding queue.  So an instance in both lists ends on a forwarding
    queue, and an allow-listed instance without a scheduler entry ends
    on the shared fallback. *)
Theorem routing_table_two_passes env flags g w :
  main env flags World0 = (inr g, w) →
  let allowList := allowActionCacheUpdatesForInstancesList flags in
  let firstPass := fallbacks (NonExecutableBuildQueue 0) allowList ∅ in
  schedulers w
  = forwarders (first_scheduler_addr flags) (schedulersList flags) firstPass
  ∧ fallbacks_created (trace w)
    = (if decide (0 < length allowList)%nat then [0%nat] else [])
  ∧ (∀ i, firstPass !! i
          = if decide (i ∈ allowList) then Some (NonExecutableBuildQueue 0)
            else None)
  ∧ (∀ i, i ∈ allowList →
          Exists (λ e, entry_instance e = i) (schedulersList flags) →
          ∃ a scheduler,
            schedulers w !! i = Some (ForwardingBuildQueue a scheduler))
  ∧ (∀ i, i ∈ allowList →
          Forall (λ e, entry_instance e ≠ i) (schedulersList flags) →
          schedulers w !! i = Some (NonExecutableBuildQueue 0)).
Proof.
  intros (_ & _ & ->)%main_ok allowList firstPass.
  cbn [startup_world schedulers trace]. split_and!.
  - done.
  - apply fallbacks_created_startup.
  - intros i. unfold firstPass. by rewrite fallbacks_lookup, lookup_empty.
  - intros i _ Hex. by apply forwarders_lookup_some.
  - intros i Hin Hno. rewrite forwarders_lookup_other by done.
    unfold firstPass. by rewrite fallbacks_lookup, decide_True.
Qed.

Lemma routing_table_two_passes_witness :
  (∃ a scheduler,
     schedulers (startup_world example_flags) !! "debian8"
     = Some (ForwardingBuildQueue a scheduler))
  ∧ schedulers (startup_world example_flags) !! "cache-only"
    = Some (NonExecutableBuildQueue 0).
Proof.
  pose proof (routing_table_two_passes example_env example_flags
                (registered example_cas example_ac) (startup_world example_flags)
                ltac:(vm_compute; reflexivity)) as (_ & _ & _ & Hboth & Hfallback).
  split.
  - apply Hboth; [by vm_compute; left|]. apply Exists_cons_hd. by vm_compute.
  - apply Hfallback; [by vm_compute; right; left|].
    repeat constructor; by vm_compute.
Defined.

(** C10 — When an instance name appears in several scheduler entries,
    the routing table maps it to the forwarding queue built from the
    last of them in flag order: the queue created for that entry, over
    the connection dialed for its endpoint, and not the queue of an
    earlier entry.  Every entry is dialed, in flag order, the shadowed
    ones too. *)
Theorem last_scheduler_entry_wins env flags g w pre e post :
  main env flags World0 = (inr g, w) →
  schedulersList flags = pre ++ e :: post →
  Forall (λ e', entry_instance e' ≠ entry_instance e) post →
  let n := (first_scheduler_addr flags + 2 * length pre)%nat in
  schedulers w !! entry_instance e
  = Some (ForwardingBuildQueue (S n)
            {| conn_addr := n; conn_target := entry_endpoint e |})
  ∧ (∀ k e0, pre !! k = Some e0 →
       let n0 := (first_scheduler_addr flags + 2 * k)%nat in
       schedulers w !! entry_instance e
       ≠ Some (ForwardingBuildQueue (S n0)
                 {| conn_addr := n0; conn_target := entry_endpoint e0 |}))
  ∧ dials (trace w) = entry_endpoint <$> schedulersList flags
  ∧ length (dials (trace w)) = length (schedulersList flags).
Proof.
  intros (_ & _ & ->)%main_ok Hl Hpost n.
  cbn [startup_world schedulers trace]. rewrite dials_startup.
  assert (forwarders (first_scheduler_addr flags) (schedulersList flags)
            (fallbacks (NonExecutableBuildQueue 0)
               (allowActionCacheUpdatesForInstancesList flags) ∅)
          !! entry_instance e
          = Some (ForwardingBuildQueue (S n)
                    {| conn_addr := n; conn_target := entry_endpoint e |})) as Hlast
    by (rewrite Hl; by apply forwarders_lookup_last).
  split_and!.
  - done.
  - intros k e0 Hk. cbv zeta. rewrite Hlast. intros [= Hn _ _].
    apply lookup_lt_Some in Hk. unfold n in Hn. lia.
  - done.
  - by rewrite length_fmap.
Qed.

Lemma last_scheduler_entry_wins_witness :
  schedulers (startup_world example_flags) !! "debian8"
  = Some (ForwardingBuildQueue 6
            {| conn_addr := 5; conn_target := "new|scheduler:8981" |})
  ∧ dials (trace (startup_world example_flags))
    = ["old-scheduler:8981"; "ubuntu-scheduler:8981"; "new|scheduler:8981"].
Proof.
  pose proof (last_scheduler_entry_wins example_env example_flags
                (registered example_cas example_ac) (startup_world example_flags)
                ["debian8|old-scheduler:8981"; "ubuntu|ubuntu-scheduler:8981"]
                "debian8|new|scheduler:8981" []
                ltac:(vm_compute; reflexivity) eq_refl ltac:(constructor))
    as (Htable & _ & Hdials & _).
  split; [exact Htable | exact Hdials].
Defined.

(** ** Fatal configuration errors *)

Lemma omap_Forall_None {A} (P : Event → Prop) (f : Event → option A) evs :
  Forall P evs → (∀ ev, P ev → f ev = None) → omap f evs = [].
Proof.
  intros H Hf. induction H as [|ev evs Hev _ IH]; [done|].
  cbn. by rewrite (Hf ev Hev), IH.
Qed.

Lemma emits_observability env flags :
  emits observability_event (observability env flags).
Proof.
  unfold observability.
  repeat first
    [ apply emits_bind; [|intros ?]
    | apply emits_ret | apply emits_fatal_on
    | apply emits_emit; exact I
    | case_decide ].
Qed.

Section config_errors.
Variable env : Env.

(** When the storage configuration cannot be resolved, the start-up
    ends in [log.Fatal] at that call or before it. *)
Lemma main_no_storage flags err :
  CreateBlobAccessObjectsFromConfig env (blobstoreConfig flags) = inl err →
  ∃ msg w,
    main env flags World0 = (inl msg, w)
    ∧ ((observability_ok_env env flags
        ∧ msg = "Failed to create blob access: " +:+ err
        ∧ trace w = observability_trace flags
                    ++ [EvCreateBlobAccessObjectsFromConfig (blobstoreConfig flags)])
       ∨ (¬ observability_ok_env env flags
          ∧ Forall observability_event (trace w))).
Proof.
  intros Herr. unfold main. rewrite bind_run.
  destruct (observability env flags World0) as [[msg|[]] w1] eqn:Hobs.
  - exists msg, w1. split; [done|]. right. split.
    + intros (Hp & Hv & Ho).
      assert (observability env flags World0
              = (inr tt, with_trace World0 (observability_trace flags))) as H
        by (by apply observability_ok).
      by rewrite H in Hobs.
    + by apply emits_observability in Hobs as (evs & -> & Hevs).
  - apply observability_ok in Hobs as (Hp & Hv & Ho & ->).
    rewrite bind_run. unfold storage_access. rewrite emit_bind_run, Herr.
    eexists _, _. split; [reflexivity|]. left. split; [done|].
    split; [done|]. reflexivity.
Qed.

(** When a scheduler entry lacks the separator and everything before
    it goes through, the start-up ends on that entry. *)
Lemma main_invalid_entry flags pre e post :
  early_ok env flags →
  schedulersList flags = pre ++ e :: post →
  Forall (passes env) pre →
  ¬ contains_bar e →
  ∃ w, main env flags World0 = (inl ("Invalid scheduler entry: " +:+ e), w).
Proof.
  intros (Hp & Hv & Ho & [cas acb] & Hc) Hl Hpre He.
  unfold main. rewrite bind_run.
  assert (observability env flags World0
          = (inr tt, with_trace World0 (observability_trace flags))) as ->
    by (by apply observability_ok).
  rewrite bind_run.
  assert (storage_access env flags (with_trace World0 (observability_trace flags))
          = (inr (cas, acb),
             with_trace (with_trace World0 (observability_trace flags))
               [EvCreateBlobAccessObjectsFromConfig (blobstoreConfig flags)])) as ->
    by (by apply storage_access_ok).
  rewrite bind_run. unfold tables.
  rewrite bind_run. cbn [make_schedulers]. rewrite bind_run.
  cbn [make_allowActionCacheUpdatesForInstances]. rewrite bind_run.
  rewrite fallback_pass_run, Hl.
  edestruct (scheduler_pass_invalid env pre e post) as (w' & -> & _); [done..|].
  by exists w'.
Qed.

End config_errors.

(** C5 — Start-up resolves the storage configuration once, into two
    handles: the content-addressable storage and the ByteStream server
    are built over the first, the action cache over the second.  When
    the resolution returns an error the process ends in [log.Fatal]
    ("Failed to create blob access: ..." when nothing failed before it)
    without having registered a service and without serving; the
    resolution is not tried a second time. *)
Theorem blob_access_resolution env flags :
  (∀ g w, main env flags World0 = (inr g, w) →
     ∃ cas acb,
       CreateBlobAccessObjectsFromConfig env (blobstoreConfig flags) = inr (cas, acb)
       ∧ g = registered cas acb
       ∧ resolutions (trace w) = [blobstoreConfig flags])
  ∧ (∀ err,
       CreateBlobAccessObjectsFromConfig env (blobstoreConfig flags) = inl err →
       ∃ msg w,
         main env flags World0 = (inl msg, w)
         ∧ ¬ serving w
         ∧ registrations (trace w) = []
         ∧ ((observability_ok_env env flags
             ∧ msg = "Failed to create blob access: " +:+ err
             ∧ resolutions (trace w) = [blobstoreConfig flags])
            ∨ (¬ observability_ok_env env flags
               ∧ resolutions (trace w) = []))).
Proof.
  split.
  - intros g w (_ & (cas & acb & Hc & ->) & ->)%main_ok.
    exists cas, acb. split_and!; [done..|]. apply resolutions_startup.
  - intros err Herr.
    destruct (main_no_storage env flags err Herr) as (msg & w & Hmain & Hcases).
    exists msg, w. split; [done|].
    split; [by eapply main_fatal|].
    destruct Hcases as [(Hobs & -> & Htr)|(Hobs & Hevs)].
    + rewrite Htr. split.
      * unfold registrations, observability_trace. rewrite !omap_app.
        by case_decide.
      * left. split_and!; [done..|].
        unfold resolutions, observability_trace. rewrite !omap_app.
        by case_decide.
    + split.
      * eapply omap_Forall_None; [exact Hevs|]. by intros [].
      * right. split; [done|].
        eapply omap_Forall_None; [exact Hevs|]. by intros [].
Qed.

Lemma blob_access_resolution_witness :
  (∃ cas acb,
     CreateBlobAccessObjectsFromConfig example_env (blobstoreConfig example_flags)
     = inr (cas, acb)
     ∧ registered example_cas example_ac = registered cas acb
     ∧ resolutions (trace (startup_world example_flags))
       = [blobstoreConfig example_flags])
  ∧ (∃ msg w,
       main example_env_no_storage example_flags World0 = (inl msg, w)
       ∧ ¬ serving w
       ∧ registrations (trace w) = []).
Proof.
  destruct (blob_access_resolution example_env example_flags) as [Hok _].
  destruct (blob_access_resolution example_env_no_storage example_flags)
    as [_ Hfatal].
  split.
  - apply Hok. vm_compute. reflexivity.
  - destruct (Hfatal "open: no such file" eq_refl)
      as (msg & w & Hmain & Hserve & Hreg & _).
    by exists msg, w.
Defined.

(** C4 — A scheduler entry without a ['|'] splits into fewer than two
    components; the loop body ends in [log.Fatal] with "Invalid
    scheduler entry: " and the entry, the start-up that has such an
    entry among its flags never serves, and it ends with that message
    when everything before the entry went through.  An entry with a
    ['|'] splits at the first one: the text before it is the instance
    name, all the text after it (further ['|'] included) is the endpoint
    that is dialed, and the queue is stored under the instance name. *)
Theorem scheduler_entry_parsing env flags :
  (∀ e, e ∈ schedulersList flags → ¬ contains_bar e →
     (length (strings.SplitN e "|" 2) < 2)%nat
     ∧ (∀ w, scheduler_body env e w
             = (inl ("Invalid scheduler entry: " +:+ e), w))
     ∧ (∃ msg w, main env flags World0 = (inl msg, w) ∧ ¬ serving w)
     ∧ (∀ pre post,
          schedulersList flags = pre ++ e :: post →
          Forall (passes env) pre →
          early_ok env flags →
          ∃ w, main env flags World0
               = (inl ("Invalid scheduler entry: " +:+ e), w)
               ∧ ¬ serving w))
  ∧ (∀ a b w, ¬ contains_bar a →
       strings.SplitN (a +:+ "|" +:+ b) "|" 2 = [a; b]
       ∧ scheduler_body env (a +:+ "|" +:+ b) w
         = match grpc_Dial env b with
           | Some err =>
               (inl ("Failed to create scheduler RPC client: " +:+ err),
                with_trace w [EvDial b])
           | None =>
               (inr tt,
                {| schedulers :=
                     <[a := ForwardingBuildQueue (S (next_addr w))
                              {| conn_addr := next_addr w; conn_target := b |}]>
                       (schedulers w);
                   allowActionCacheUpdatesForInstances :=
                     allowActionCacheUpdatesForInstances w;
                   next_addr := S (S (next_addr w));
                   trace := trace w ++ [EvDial b] |})
           end).
Proof.
  split.
  - intros e Hin He. split_and!.
    + rewrite SplitN_no_bar by done. cbn. lia.
    + intros w. by rewrite scheduler_body_run, decide_False.
    + destruct (main_outcome env flags) as [(msg & w & H)|(g & w & H)].
      * exists msg, w. split; [done|]. by eapply main_fatal.
      * apply main_ok in H as ((_ & _ & _ & _ & Hs & _) & _).
        rewrite Forall_forall in Hs. by destruct (Hs e Hin) as [? _].
    + intros pre post Hl Hpre Hearly.
      destruct (main_invalid_entry env flags pre e post) as [w H]; [done..|].
      exists w. split; [done|]. by eapply main_fatal.
  - intros a b w Ha. split; [by apply SplitN_bar|].
    rewrite scheduler_body_run, decide_True by apply contains_bar_app.
    unfold entry_endpoint, entry_instance. rewrite SplitN_bar by done.
    change ([a; b] !!! 1%nat) with b. change ([a; b] !!! 0%nat) with a.
    by destruct (grpc_Dial env b).
Qed.

Lemma scheduler_entry_parsing_witness :
  (∃ w, main example_env example_flags_invalid World0
        = (inl "Invalid scheduler entry: debian8", w)
        ∧ ¬ serving w)
  ∧ strings.SplitN "debian8|new|scheduler:8981" "|" 2
    = ["debian8"; "new|scheduler:8981"].
Proof.
  destruct (scheduler_entry_parsing example_env example_flags_invalid)
    as [Hinvalid Hvalid].
  split.
  - destruct (Hinvalid "debian8") as (_ & _ & _ & Hmain).
    + vm_compute. right. left.
    + not_in_list.
    + apply (Hmain ["ubuntu|ubuntu-scheduler:8981"] ["x|y"] eq_refl).
      * repeat constructor; vm_compute; by repeat constructor.
      * split_and!; [done..|by eexists].
  - apply (Hvalid "debian8" "new|scheduler:8981" World0).
    not_in_list.
Defined.

(** ** Serving over the tables *)

Section serving_facts.
Variable B : Backends.

(** One call leaves the process state of [main] as it is. *)
Lemma handle_world cas acb rq (s : ServeState B) :
  world B (handle B (registered cas acb) rq s).2 = world B s.
Proof.
  destruct rq as [d|d result|i digests|d off|i|d];
    cbn [handle registered on_service actionCacheServer
         contentAddressableStorageServer byteStreamServer capabilitiesServer
         executionServer].
  - unfold ActionCacheServer_GetActionResult.
    by destruct (BlobAccess_Get B _ _ _).
  - unfold ActionCacheServer_UpdateActionResult.
    case_match; [|done]. by destruct (BlobAccess_Put B _ _ _ _).
  - unfold ContentAddressableStorageServer_FindMissingBlobs.
    by destruct (BlobAccess_FindMissing B _ _ _ _).
  - unfold ByteStreamServer_Read. by destruct (BlobAccess_Get B _ _ _).
  - unfold DemultiplexingBuildQueue_GetCapabilities. cbn [getBackend].
    pose proof (lookup_reads i (world B s)) as H.
    by destruct (lookup i (world B s)) as [[err|q] w'].
  - unfold DemultiplexingBuildQueue_Execute. cbn [getBackend].
    pose proof (lookup_reads (instance d) (world B s)) as H.
    by destruct (lookup (instance d) (world B s)) as [[err|q] w'].
Qed.

Lemma serve_world cas acb rqs (s : ServeState B) :
  Forall (λ rs, world B rs.2 = world B s) (serve B (registered cas acb) rqs s).
Proof.
  revert s. induction rqs as [|rq rqs IH]; intros s; cbn [serve]; [done|].
  pose proof (handle_world cas acb rq s) as H.
  destruct (handle B (registered cas acb) rq s) as [r s']. cbn [snd] in H.
  constructor; [done|]. rewrite <- H. apply IH.
Qed.

Lemma serve_length g rqs (s : ServeState B) :
  length (serve B g rqs s) = length rqs.
Proof.
  revert s. induction rqs as [|rq rqs IH]; intros s; cbn [serve]; [done|].
  destruct (handle B g rq s) as [r s']. cbn. by rewrite IH.
Qed.

End serving_facts.

(** C9 — The routing table and the allow-list table are complete when
    the server starts to serve (serving is the last step of a start-up,
    and it starts from the state the two passes left), and no call
    served afterwards changes them: after every call of every run the
    process state, and with it the mapping the lookup closure and the
    allow-list check observe for any instance name, is the one [main]
    left. *)
Theorem tables_read_only_while_serving
    (B : Backends) env flags g w (rqs : list Request) (s : ServeState B) :
  main env flags World0 = (inr g, w) →
  world B s = w →
  last (trace w) = Some EvServe
  ∧ schedulers w
    = forwarders (first_scheduler_addr flags) (schedulersList flags)
        (fallbacks (NonExecutableBuildQueue 0)
           (allowActionCacheUpdatesForInstancesList flags) ∅)
  ∧ allowActionCacheUpdatesForInstances w
    = allowed (allowActionCacheUpdatesForInstancesList flags) ∅
  ∧ length (serve B g rqs s) = length rqs
  ∧ Forall (λ rs,
       schedulers (world B rs.2) = schedulers w
       ∧ allowActionCacheUpdatesForInstances (world B rs.2)
         = allowActionCacheUpdatesForInstances w
       ∧ ∀ i, lookup i (world B rs.2) = lookup i w)
      (serve B g rqs s).
Proof.
  intros (_ & (cas & acb & _ & ->) & ->)%main_ok Hs. split_and!.
  - cbn [startup_world trace]. unfold startup_trace.
    rewrite !app_assoc. unfold rpc_server_trace.
    change [EvRegister ActionCacheService;
            EvRegister ContentAddressableStorageService;
            EvRegister ByteStreamService; EvRegister CapabilitiesService;
            EvRegister ExecutionService; EvListen "tcp" ":8980"; EvServe]
      with ([EvRegister ActionCacheService;
             EvRegister ContentAddressableStorageService;
             EvRegister ByteStreamService; EvRegister CapabilitiesService;
             EvRegister ExecutionService; EvListen "tcp" ":8980"] ++ [EvServe]).
    rewrite app_assoc. apply last_snoc.
  - done.
  - done.
  - apply serve_length.
  - eapply Forall_impl; [apply serve_world|].
    intros [r s'] Hw. cbn [snd] in *. by rewrite Hw, Hs.
Qed.

Lemma tables_read_only_while_serving_witness :
  Forall (λ rs,
     schedulers (world example_backends rs.2)
     = schedulers (startup_world example_flags)
     ∧ allowActionCacheUpdatesForInstances (world example_backends rs.2)
       = allowActionCacheUpdatesForInstances (startup_world example_flags)
     ∧ ∀ i, lookup i (world example_backends rs.2)
            = lookup i (startup_world example_flags))
    (serve example_backends (registered example_cas example_ac)
       [UpdateActionResult (example_digest "debian8") [];
        Execute (example_digest "windows");
        GetCapabilities "cache-only";
        Execute (example_digest "debian8")]
       example_state).
Proof.
  apply (tables_read_only_while_serving example_backends example_env
           example_flags (registered example_cas example_ac)
           (startup_world example_flags) _ example_state);
    [vm_compute; reflexivity | reflexivity].
Defined.

(** ** The action cache and its allow-list *)

(** The allow-list table of a start-up that serves holds exactly the
    instances of the flag, each with [true]. *)
Lemma startup_allow flags i :
  allowActionCacheUpdatesForInstances (startup_world flags) !! i
  = if decide (i ∈ allowActionCacheUpdatesForInstancesList flags)
    then Some true else None.
Proof. cbn [startup_world allowActionCacheUpdatesForInstances].
  by rewrite allowed_lookup, lookup_empty. Qed.

(** C3 — The table handed to the action cache server maps an instance
    to [true] exactly when the instance is in the
    allow-ac-updates-for-instance flag list (and holds nothing else).
    UpdateActionResult for an instance outside the list fails with
    PERMISSION_DENIED and leaves the whole state as it was: the storage
    is not touched and no Put is issued.  For an instance in the list
    the result is that of the one Put against the action-cache storage;
    so the call succeeds only for instances in the list. *)
Theorem update_action_result_allow_list
    (B : Backends) env flags g w (d : Digest) (result : Blob) (s : ServeState B) :
  main env flags World0 = (inr g, w) →
  world B s = w →
  let allowList := allowActionCacheUpdatesForInstancesList flags in
  ∃ cas acb,
    CreateBlobAccessObjectsFromConfig env (blobstoreConfig flags) = inr (cas, acb)
    ∧ actionCacheServer g
      = Some (NewActionCacheServer (NewBlobAccessActionCache acb)
                allowActionCacheUpdatesForInstances)
    ∧ (∀ i, allowActionCacheUpdatesForInstances w !! i = Some true ↔ i ∈ allowList)
    ∧ (∀ i, allowActionCacheUpdatesForInstances w !! i ≠ Some false)
    ∧ (instance d ∉ allowList →
       handle B g (UpdateActionResult d result) s
       = (Failed (status_Errorf PermissionDenied (permission_denied_text B)), s))
    ∧ (instance d ∈ allowList →
       handle B g (UpdateActionResult d result) s
       = (match (BlobAccess_Put B acb d result (store B s)).1 with
          | Some err => Failed err
          | None => ActionResult result
          end,
          {| world := w;
             store := (BlobAccess_Put B acb d result (store B s)).2;
             calls := calls B s ++ [CallPut acb d] |}))
    ∧ ((handle B g (UpdateActionResult d result) s).1 = ActionResult result →
       instance d ∈ allowList).
Proof.
  intros (_ & (cas & acb & Hc & ->) & ->)%main_ok Hs allowList.
  exists cas, acb. split; [done|]. split; [done|].
  assert (∀ i, allowActionCacheUpdatesForInstances (startup_world flags) !! i
               = if decide (i ∈ allowList) then Some true else None) as Hallow
    by apply startup_allow.
  assert (handle B (registered cas acb) (UpdateActionResult d result) s
          = if decide (instance d ∈ allowList) then
              (match (BlobAccess_Put B acb d result (store B s)).1 with
               | Some err => Failed err
               | None => ActionResult result
               end,
               {| world := startup_world flags;
                  store := (BlobAccess_Put B acb d result (store B s)).2;
                  calls := calls B s ++ [CallPut acb d] |})
            else (Failed (status_Errorf PermissionDenied (permission_denied_text B)),
                  s)) as Hhandle.
  { cbn [handle registered on_service actionCacheServer].
    unfold ActionCacheServer_UpdateActionResult.
    cbn [allowUpdatesForInstances actionCache ac_blobAccess].
    rewrite Hs, Hallow. case_decide; cbn [default id]; [|done].
    unfold call. by destruct (BlobAccess_Put B _ _ _ _). }
  split; [|split; [|split; [|split]]].
  - intros i. rewrite Hallow. by destruct (decide (i ∈ allowList)).
  - intros i. rewrite Hallow. by destruct (decide (i ∈ allowList)).
  - intros Hno. by rewrite Hhandle, decide_False.
  - intros Hin. by rewrite Hhandle, decide_True.
  - rewrite Hhandle. by destruct (decide (instance d ∈ allowList)).
Qed.

Lemma update_action_result_allow_list_witness :
  handle example_backends (registered example_cas example_ac)
    (UpdateActionResult (example_digest "windows") []) example_state
  = (Failed (status_Errorf PermissionDenied
               "This service can only be used to get action results"),
     example_state)
  ∧ (handle example_backends (registered example_cas example_ac)
       (UpdateActionResult (example_digest "cache-only") []) example_state).1
    = ActionResult [].
Proof.
  split.
  - destruct (update_action_result_allow_list example_backends example_env
                example_flags (registered example_cas example_ac)
                (startup_world example_flags) (example_digest "windows") []
                example_state ltac:(vm_compute; reflexivity) eq_refl)
      as (cas & acb & _ & _ & _ & _ & Hdenied & _).
    apply Hdenied. not_in_list.
  - destruct (update_action_result_allow_list example_backends example_env
                example_flags (registered example_cas example_ac)
                (startup_world example_flags) (example_digest "cache-only") []
                example_state ltac:(vm_compute; reflexivity) eq_refl)
      as (cas & acb & _ & _ & _ & _ & _ & Hallowed & _).
    rewrite Hallowed; [reflexivity|]. vm_compute. right. left.
Defined.

(** ** One pair of storage handles *)

Lemma handle_blob_backends (B : Backends) cas acb rq (s : ServeState B) :
  ∃ cs, calls B (handle B (registered cas acb) rq s).2 = calls B s ++ cs
        ∧ Forall (λ b, service_handle cas acb rq = Some b) (blob_backends cs).
Proof.
  destruct rq as [d|d result|i digests|d off|i|d];
    cbn [handle registered on_service actionCacheServer
         contentAddressableStorageServer byteStreamServer capabilitiesServer
         executionServer service_handle].
  - unfold ActionCacheServer_GetActionResult.
    destruct (BlobAccess_Get B _ _ _). eexists [_]. split; [done|].
    by repeat constructor.
  - unfold ActionCacheServer_UpdateActionResult. case_match.
    + destruct (BlobAccess_Put B _ _ _ _). eexists [_]. split; [done|].
      by repeat constructor.
    + exists []. by rewrite app_nil_r.
  - unfold ContentAddressableStorageServer_FindMissingBlobs.
    destruct (BlobAccess_FindMissing B _ _ _ _). eexists [_]. split; [done|].
    by repeat constructor.
  - unfold ByteStreamServer_Read.
    destruct (BlobAccess_Get B _ _ _). eexists [_]. split; [done|].
    by repeat constructor.
  - unfold DemultiplexingBuildQueue_GetCapabilities.
    destruct (getBackend _ _ _) as [[err|q] w'].
    + exists []. by rewrite app_nil_r.
    + eexists [_]. split; [done|]. constructor.
  - unfold DemultiplexingBuildQueue_Execute.
    destruct (getBackend _ _ _) as [[err|q] w'].
    + exists []. by rewrite app_nil_r.
    + eexists [_]. split; [done|]. constructor.
Qed.

(** C6 — One pair of storage handles serves all instance names: the
    content-addressable storage server and the ByteStream server are
    built over the one handle for the content-addressable storage, the
    action cache server over the one handle for the action cache, after
    a single resolution of the configuration.  Whatever the instance
    name of a call, what it asks of the storage it asks of the handle
    of its service, and its answer and the state of the backends after
    it are those of that handle: [GetActionResult] and
    [UpdateActionResult] act on the action-cache handle;
    [FindMissingBlobs], [Read], [Write] and [QueryWriteStatus] on the
    other one; [GetCapabilities] and [Execute] leave the storage as it
    is. *)
Theorem single_blob_access_pair (B : Backends) env flags g w :
  main env flags World0 = (inr g, w) →
  ∃ cas acb,
    CreateBlobAccessObjectsFromConfig env (blobstoreConfig flags) = inr (cas, acb)
    ∧ contentAddressableStorageServer g
      = Some (NewContentAddressableStorageServer cas)
    ∧ byteStreamServer g = Some (NewByteStreamServer cas (Z.shiftl 1 16))
    ∧ actionCacheServer g
      = Some (NewActionCacheServer (NewBlobAccessActionCache acb)
                allowActionCacheUpdatesForInstances)
    ∧ resolutions (trace w) = [blobstoreConfig flags]
    ∧ (∀ rq (s : ServeState B),
         ∃ cs, calls B (handle B g rq s).2 = calls B s ++ cs
               ∧ Forall (λ b, service_handle cas acb rq = Some b)
                   (blob_backends cs))
    ∧ (∀ d (s : ServeState B),
         handle B g (GetActionResult d) s
         = (match (BlobAccess_Get B acb d (store B s)).1 with
            | inl err => Failed err
            | inr blob => ActionResult blob
            end,
            {| world := world B s;
               store := (BlobAccess_Get B acb d (store B s)).2;
               calls := calls B s ++ [CallGet acb d] |}))
    ∧ (∀ d result (s : ServeState B),
         handle B g (UpdateActionResult d result) s
         = if default false
                (allowActionCacheUpdatesForInstances (world B s) !! instance d)
           then
             (match (BlobAccess_Put B acb d result (store B s)).1 with
              | Some err => Failed err
              | None => ActionResult result
              end,
              {| world := world B s;
                 store := (BlobAccess_Put B acb d result (store B s)).2;
                 calls := calls B s ++ [CallPut acb d] |})
           else
             (Failed (status_Errorf PermissionDenied (permission_denied_text B)),
              s))
    ∧ (∀ i digests (s : ServeState B),
         handle B g (FindMissingBlobs i digests) s
         = (MissingBlobs (BlobAccess_FindMissing B cas i digests (store B s)).1,
            {| world := world B s;
               store := (BlobAccess_FindMissing B cas i digests (store B s)).2;
               calls := calls B s ++ [CallFindMissing cas] |}))
    ∧ (∀ d readOffset (s : ServeState B),
         handle B g (Read d readOffset) s
         = (match (BlobAccess_Get B cas d (store B s)).1 with
            | inl err => Failed err
            | inr blob =>
                ReadResponses
                  (chunks (Z.to_nat (Z.shiftl 1 16))
                     (drop (Z.to_nat readOffset) blob))
            end,
            {| world := world B s;
               store := (BlobAccess_Get B cas d (store B s)).2;
               calls := calls B s ++ [CallGet cas d] |}))
    ∧ (∀ protocol_error srv d chunks (s : ServeState B),
         byteStreamServer g = Some srv →
         ByteStreamServer_Write B protocol_error srv d chunks s
         = match upload 0 chunks with
           | Some blob =>
               if (Z.of_nat (length blob) =? sizeBytes d)%Z then
                 (match (BlobAccess_Put B cas d blob (store B s)).1 with
                  | Some err => WriteFailed err
                  | None => WriteCommitted (sizeBytes d)
                  end,
                  {| world := world B s;
                     store := (BlobAccess_Put B cas d blob (store B s)).2;
                     calls := calls B s ++ [CallPut cas d] |})
               else (WriteFailed protocol_error, s)
           | None => (WriteFailed protocol_error, s)
           end)
    ∧ (∀ QueryWriteStatus srv d (s : ServeState B),
         byteStreamServer g = Some srv →
         ByteStreamServer_QueryWriteStatus B QueryWriteStatus srv d s
         = ((QueryWriteStatus cas (Z.shiftl 1 16) d (store B s)).1,
            {| world := world B s;
               store := (QueryWriteStatus cas (Z.shiftl 1 16) d (store B s)).2;
               calls := calls B s |}))
    ∧ (∀ rq (s : ServeState B),
         service_handle cas acb rq = None →
         store B (handle B g rq s).2 = store B s).
Proof.
  intros (_ & (cas & acb & Hc & ->) & ->)%main_ok.
  exists cas, acb. split_and!; [done..| | | | | | | | |].
  - apply resolutions_startup.
  - intros rq s. apply handle_blob_backends.
  - intros d s.
    cbn [handle registered on_service actionCacheServer].
    unfold ActionCacheServer_GetActionResult.
    cbn [actionCache ac_blobAccess]. by destruct (BlobAccess_Get B _ _ _).
  - intros d result s.
    cbn [handle registered on_service actionCacheServer].
    unfold ActionCacheServer_UpdateActionResult.
    cbn [actionCache ac_blobAccess allowUpdatesForInstances].
    case_match; [|done]. by destruct (BlobAccess_Put B _ _ _ _).
  - intros i digests s.
    cbn [handle registered on_service contentAddressableStorageServer].
    unfold ContentAddressableStorageServer_FindMissingBlobs.
    cbn [cas_blobAccess]. by destruct (BlobAccess_FindMissing B _ _ _ _).
  - intros d readOffset s.
    cbn [handle registered on_service byteStreamServer].
    unfold ByteStreamServer_Read.
    cbn [bs_blobAccess readChunkSize]. by destruct (BlobAccess_Get B _ _ _).
  - intros protocol_error srv d chunks s [= <-].
    unfold ByteStreamServer_Write. cbn [bs_blobAccess].
    destruct (upload 0 chunks) as [blob|]; [|done].
    case_match; [|done]. by destruct (BlobAccess_Put B _ _ _ _).
  - intros QueryWriteStatus srv d s [= <-].
    unfold ByteStreamServer_QueryWriteStatus.
    cbn [bs_blobAccess readChunkSize].
    by destruct (QueryWriteStatus _ _ _ _).
  - intros rq s Hrq. destruct rq as [d|d result|i digests|d off|i|d]; try done;
      cbn [handle registered on_service capabilitiesServer executionServer].
    + unfold DemultiplexingBuildQueue_GetCapabilities.
      by destruct (getBackend _ _ _) as [[err|q] w'].
    + unfold DemultiplexingBuildQueue_Execute.
      by destruct (getBackend _ _ _) as [[err|q] w'].
Qed.

Lemma single_blob_access_pair_witness :
  ∃ cas acb,
    contentAddressableStorageServer (registered example_cas example_ac)
    = Some (NewContentAddressableStorageServer cas)
    ∧ byteStreamServer (registered example_cas example_ac)
      = Some (NewByteStreamServer cas 65536)
    ∧ actionCacheServer (registered example_cas example_ac)
      = Some (NewActionCacheServer (NewBlobAccessActionCache acb)
                allowActionCacheUpdatesForInstances).
Proof.
  destruct (single_blob_access_pair example_backends example_env example_flags
              (registered example_cas example_ac) (startup_world example_flags)
              ltac:(vm_compute; reflexivity))
    as (cas & acb & _ & Hcas & Hbs & Hac & _).
  by exists cas, acb.
Defined.

(** ** The upload path on examples *)

(** Chunks that follow one another are put together. *)
Example upload_in_order :
  upload 0 [(0, [Byte.x61; Byte.x62]); (2, [Byte.x63])]
  = Some [Byte.x61; Byte.x62; Byte.x63].
Proof. reflexivity. Qed.

(** A chunk that leaves a gap or goes back is refused. *)
Example upload_out_of_order :
  upload 0 [(0, [Byte.x61; Byte.x62]); (3, [Byte.x63])] = None
  ∧ upload 0 [(0, [Byte.x61; Byte.x62]); (1, [Byte.x63])] = None.
Proof. split; reflexivity. Qed.

(** What an upload commits has the length its chunks add up to. *)
Lemma upload_length committed chunks blob :
  upload committed chunks = Some blob →
  length blob = sum_list (length ∘ snd <$> chunks).
Proof.
  revert committed blob.
  induction chunks as [|[offset data] chunks IH]; intros committed blob.
  - by intros [= <-].
  - cbn [upload]. case_match; [|done].
    destruct (upload _ chunks) as [rest|] eqn:E; [|done].
    intros [= <-]. rewrite length_app, (IH _ _ E). done.
Qed.

(** ** The chunks of the download path *)

Lemma chunks_loop_spec fuel size (data : Blob) :
  (0 < size)%nat → (length data ≤ fuel)%nat →
  concat (chunks_loop fuel size data) = data
  ∧ Forall (λ c : Blob, (0 < length c ≤ size)%nat) (chunks_loop fuel size data).
Proof.
  intros Hsize. revert data. induction fuel as [|fuel IH]; intros data Hlen.
  - destruct data; [done|cbn in Hlen; lia].
  - destruct data as [|x data]; [done|].
    cbn [chunks_loop]. set (l := x :: data) in *.
    assert (0 < length l)%nat by (unfold l; cbn; lia).
    destruct (IH (drop size l)) as [Hcat Hall].
    { rewrite length_drop. lia. }
    split.
    + cbn [concat]. rewrite Hcat. apply take_drop.
    + constructor; [|done]. rewrite length_take. lia.
Qed.

Lemma chunks_spec size (data : Blob) :
  (0 < size)%nat →
  concat (chunks size data) = data
  ∧ Forall (λ c : Blob, (0 < length c ≤ size)%nat) (chunks size data).
Proof. intros H. by apply chunks_loop_spec. Qed.

(** C7 — The ByteStream server is built with the chunk size [1<<16],
    that is 65536.  The chunks of a Read response are never empty, hold
    at most 65536 bytes each and are, one after the other, the content
    of the blob from the read offset on. *)
Theorem bytestream_chunk_size (B : Backends) env flags g w :
  main env flags World0 = (inr g, w) →
  ∃ cas acb,
    CreateBlobAccessObjectsFromConfig env (blobstoreConfig flags) = inr (cas, acb)
    ∧ byteStreamServer g = Some (NewByteStreamServer cas (Z.shiftl 1 16))
    ∧ Z.shiftl 1 16 = 65536
    ∧ ∀ d off (s : ServeState B),
        match (BlobAccess_Get B cas d (store B s)).1 with
        | inl err => (handle B g (Read d off) s).1 = Failed err
        | inr blob =>
            ∃ chunks,
              (handle B g (Read d off) s).1 = ReadResponses chunks
              ∧ Forall (λ c : Blob, 0 < Z.of_nat (length c) ≤ 65536) chunks
              ∧ concat chunks = drop (Z.to_nat off) blob
        end.
Proof.
  intros (_ & (cas & acb & Hc & ->) & ->)%main_ok.
  exists cas, acb. split_and!; [done..|].
  intros d off s.
  cbn [handle registered on_service byteStreamServer].
  unfold ByteStreamServer_Read. cbn [bs_blobAccess readChunkSize].
  destruct (BlobAccess_Get B cas d (store B s)) as [[err|blob] st]; cbn [fst];
    [done|].
  eexists. split; [done|].
  destruct (chunks_spec (Z.to_nat (Z.shiftl 1 16)) (drop (Z.to_nat off) blob))
    as [Hcat Hall].
  { change (Z.shiftl 1 16) with 65536. lia. }
  split; [|done]. eapply Forall_impl; [exact Hall|].
  intros c Hlen. cbv beta in Hlen.
  change (Z.shiftl 1 16) with 65536 in Hlen. lia.
Qed.

Lemma bytestream_chunk_size_witness :
  ∃ chunks,
    (handle example_backends_blob (registered example_cas example_ac)
       (Read (example_digest "debian8") 1) example_state_blob).1
    = ReadResponses chunks
    ∧ Forall (λ c : Blob, 0 < Z.of_nat (length c) ≤ 65536) chunks
    ∧ concat chunks = [Byte.x02; Byte.x03].
Proof.
  destruct (bytestream_chunk_size example_backends_blob example_env example_flags
              (registered example_cas example_ac) (startup_world example_flags)
              ltac:(vm_compute; reflexivity))
    as (cas & acb & Hc & _ & _ & Hread).
  injection Hc as <- <-.
  exact (Hread (example_digest "debian8") 1 example_state_blob).
Defined.

(** ** The non-executable queue *)

(** C8 — For every instance name the routing table maps to the
    non-executable queue, GetCapabilities succeeds and advertises the
    cache capability with execution disabled, while Execute on that
    instance fails with UNIMPLEMENTED, whatever the action. *)
Theorem non_executable_queue
    (B : Backends) env flags g w i fallback (s : ServeState B) :
  main env flags World0 = (inr g, w) →
  world B s = w →
  schedulers w !! i = Some (NonExecutableBuildQueue fallback) →
  (handle B g (GetCapabilities i) s).1
  = Capabilities {| cacheCapabilities := true; execEnabled := false |}
  ∧ ∀ d, instance d = i →
      (handle B g (Execute d) s).1
      = Failed (status_Errorf Unimplemented (not_implemented_text B)).
Proof.
  intros (_ & (cas & acb & _ & ->) & ->)%main_ok Hs Hq. rewrite <- Hs in Hq.
  split.
  - cbn [handle registered on_service capabilitiesServer].
    unfold DemultiplexingBuildQueue_GetCapabilities. cbn [getBackend].
    by rewrite (lookup_Some _ _ _ Hq).
  - intros d <-.
    cbn [handle registered on_service executionServer].
    unfold DemultiplexingBuildQueue_Execute. cbn [getBackend].
    by rewrite (lookup_Some _ _ _ Hq).
Qed.

Lemma non_executable_queue_witness :
  (handle example_backends (registered example_cas example_ac)
     (GetCapabilities "cache-only") example_state).1
  = Capabilities {| cacheCapabilities := true; execEnabled := false |}
  ∧ (handle example_backends (registered example_cas example_ac)
       (Execute (example_digest "cache-only")) example_state).1
    = Failed (status_Errorf Unimplemented
                "This service does not support remote execution").
Proof.
  destruct (non_executable_queue example_backends example_env example_flags
              (registered example_cas example_ac) (startup_world example_flags)
              "cache-only" 0%nat example_state
              ltac:(vm_compute; reflexivity) eq_refl ltac:(vm_compute; reflexivity))
    as [Hcaps Hexec].
  split; [exact Hcaps | exact (Hexec (example_digest "cache-only") eq_refl)].
Defined.

(** * Further properties of [main] *)

(** Closes [contains_bar s] and [Forall (passes env) l] on concrete
    entries. *)
Ltac has_bar :=
  unfold contains_bar; apply (bool_decide_unpack _); vm_compute; exact I.
Ltac all_pass :=
  repeat (apply Forall_cons_2; [split; [has_bar | reflexivity]|]);
  apply Forall_nil_2.

(** ** The order of a start-up *)

Lemma follows_ret {A} (a : A) : follows [] (mret a).
Proof.
  intros w r w' [= <- <-]. exists []. by rewrite app_nil_r.
Qed.

Lemma follows_log_Fatal {A} evs msg : follows evs (log_Fatal (A:=A) msg).
Proof.
  intros w r w' [= <- <-]. exists []. rewrite app_nil_r.
  split_and!; [done|apply prefix_nil|done].
Qed.

Lemma follows_emit ev : follows [ev] (emit ev).
Proof. intros w r w' [= <- <-]. by exists [ev]. Qed.

Lemma follows_state {A} (m : M A) :
  (∀ w, trace (m w).2 = trace w) → follows [] m.
Proof.
  intros H w r w' Hm. exists []. rewrite app_nil_r.
  specialize (H w). by rewrite Hm in H.
Qed.

Lemma follows_fatal_on prefix err : follows [] (fatal_on prefix err).
Proof. destruct err; [apply follows_log_Fatal | apply follows_ret]. Qed.

Lemma follows_bind {A B} e1 e2 (m : M A) (f : A → M B) :
  follows e1 m → (∀ a, follows e2 (f a)) → follows (e1 ++ e2) (m ≫= f).
Proof.
  intros Hm Hf w r w'. rewrite bind_run.
  destruct (m w) as [[msg|a] w1] eqn:E.
  - intros [= <- <-]. destruct (Hm _ _ _ E) as (d1 & H1 & Hp1 & _).
    exists d1. split_and!; [done| |done]. by apply prefix_app_r.
  - intros Hfa. destruct (Hm _ _ _ E) as (d1 & H1 & _ & Hd1).
    rewrite (Hd1 a eq_refl) in H1.
    destruct (Hf _ _ _ _ Hfa) as (d2 & H2 & Hp2 & Hd2).
    exists (e1 ++ d2). split_and!.
    + by rewrite H2, H1, <- app_assoc.
    + by apply prefix_app.
    + intros b Hb. by rewrite (Hd2 b Hb).
Qed.

Lemma follows_eq {A} e1 e2 (m : M A) : e1 = e2 → follows e1 m → follows e2 m.
Proof. by intros ->. Qed.

Lemma follows_scheduler_body env e :
  follows [EvDial (entry_endpoint e)] (scheduler_body env e).
Proof.
  intros w r w'. rewrite scheduler_body_run. case_decide.
  - destruct (grpc_Dial env (entry_endpoint e)); intros [= <- <-];
      by exists [EvDial (entry_endpoint e)].
  - intros [= <- <-]. exists []. rewrite app_nil_r.
    split_and!; [done|apply prefix_nil|done].
Qed.

Lemma follows_scheduler_pass env l :
  follows (EvDial ∘ entry_endpoint <$> l) (scheduler_pass env l).
Proof.
  unfold scheduler_pass. induction l as [|e l IH]; [apply follows_ret|].
  cbn [range].
  change (EvDial ∘ entry_endpoint <$> e :: l)
    with ([EvDial (entry_endpoint e)] ++ (EvDial ∘ entry_endpoint <$> l)).
  apply follows_bind; [apply follows_scheduler_body | by intros _].
Qed.

Lemma follows_observability env flags :
  follows (observability_trace flags) (observability env flags).
Proof.
  unfold observability, observability_trace.
  change [EvGoListenAndServe (webListenAddress flags); EvNewPrometheusExporter;
          EvViewRegister]
    with ([EvGoListenAndServe (webListenAddress flags)]
          ++ [EvNewPrometheusExporter] ++ [] ++ [EvViewRegister] ++ []).
  rewrite <- !app_assoc.
  repeat (apply follows_bind;
          [first [apply follows_emit | apply follows_fatal_on]|intros _]).
  case_decide.
  - change [EvNewOcagentExporter (ocagentAddress flags) (ocagentServiceName flags)]
      with ([EvNewOcagentExporter (ocagentAddress flags) (ocagentServiceName flags)]
            ++ []).
    apply follows_bind; [apply follows_emit | intros _; apply follows_fatal_on].
  - apply follows_ret.
Qed.

Lemma follows_storage_access env flags :
  follows [EvCreateBlobAccessObjectsFromConfig (blobstoreConfig flags)]
    (storage_access env flags).
Proof.
  unfold storage_access.
  change [EvCreateBlobAccessObjectsFromConfig (blobstoreConfig flags)]
    with ([EvCreateBlobAccessObjectsFromConfig (blobstoreConfig flags)] ++ []).
  apply follows_bind; [apply follows_emit|intros _].
  destruct (CreateBlobAccessObjectsFromConfig env _);
    [apply follows_log_Fatal | apply follows_ret].
Qed.

Lemma follows_rpc_server env cas acb :
  follows rpc_server_trace (rpc_server env cas acb).
Proof.
  unfold rpc_server, rpc_server_trace, RegisterActionCacheServer,
    RegisterContentAddressableStorageServer, RegisterByteStreamServer,
    RegisterCapabilitiesServer, RegisterExecutionServer.
  change [EvRegister ActionCacheService;
          EvRegister ContentAddressableStorageService;
          EvRegister ByteStreamService; EvRegister CapabilitiesService;
          EvRegister ExecutionService; EvListen "tcp" ":8980"; EvServe]
    with (([EvRegister ActionCacheService] ++ [])
          ++ ([EvRegister ContentAddressableStorageService] ++ [])
          ++ ([EvRegister ByteStreamService] ++ [])
          ++ ([EvRegister CapabilitiesService] ++ [])
          ++ ([EvRegister ExecutionService] ++ [])
          ++ [EvListen "tcp" ":8980"] ++ [] ++ [EvServe] ++ []).
  repeat (apply follows_bind;
          [first [ apply follows_emit | apply follows_fatal_on
                 | apply follows_bind; [apply follows_emit|intros _; apply follows_ret] ]
          |intros ?]).
  apply follows_ret.
Qed.

(** The two tables are built from a state where nothing has been
    allocated yet. *)
Lemma follows_tables env flags w r w' :
  next_addr w = 0%nat →
  tables env flags w = (r, w') →
  ∃ done,
    trace w' = trace w ++ done
    ∧ done `prefix_of`
        ((if decide (0 < length (allowActionCacheUpdatesForInstancesList flags))%nat
          then [EvNewNonExecutableBuildQueue 0] else [])
         ++ (EvDial ∘ entry_endpoint <$> schedulersList flags))
    ∧ (∀ a, r = inr a →
         done = (if decide (0 < length (allowActionCacheUpdatesForInstancesList flags))%nat
                 then [EvNewNonExecutableBuildQueue 0] else [])
                ++ (EvDial ∘ entry_endpoint <$> schedulersList flags)).
Proof.
  intros Hw. unfold tables.
  change ((make_schedulers ≫= ?f) w) with (f tt (make_schedulers w).2).
  cbv beta.
  change ((make_allowActionCacheUpdatesForInstances ≫= ?f) ?v)
    with (f tt (make_allowActionCacheUpdatesForInstances v).2).
  cbv beta. rewrite bind_run, fallback_pass_run.
  cbn [snd make_schedulers make_allowActionCacheUpdatesForInstances
       schedulers allowActionCacheUpdatesForInstances next_addr trace].
  rewrite Hw. intros H.
  apply follows_scheduler_pass in H as (d & Hd & Hp & Hall).
  case_decide; cbn [trace] in Hd.
  - exists ([EvNewNonExecutableBuildQueue 0%nat] ++ d). split_and!.
    + by rewrite Hd, <- app_assoc.
    + by apply prefix_app.
    + intros a Ha. by rewrite (Hall a Ha).
  - by exists d.
Qed.

Lemma serving_startup_world flags : serving (startup_world flags).
Proof.
  unfold serving. cbn [startup_world trace]. unfold startup_trace, rpc_server_trace.
  rewrite !elem_of_app. do 4 right. rewrite !elem_of_cons. by do 6 right; left.
Qed.

Lemma main_trace_prefix env flags r w :
  main env flags World0 = (r, w) → trace w `prefix_of` startup_trace flags.
Proof.
  unfold main, startup_trace. rewrite bind_run.
  destruct (observability env flags World0) as [[msg|[]] w1] eqn:E1.
  - intros [= <- <-].
    apply follows_observability in E1 as (d & Hd & Hp & _).
    cbn [trace World0 app] in Hd. rewrite Hd. by apply prefix_app_r.
  - apply observability_ok in E1 as (_ & _ & _ & ->). rewrite bind_run.
    destruct (storage_access env flags _) as [[msg|[cas acb]] w2] eqn:E2.
    + intros [= <- <-].
      apply follows_storage_access in E2 as (d & Hd & Hp & _).
      cbn [trace World0 with_trace app] in Hd. rewrite Hd.
      apply prefix_app. by apply prefix_app_r.
    + apply storage_access_ok in E2 as (_ & ->). rewrite bind_run.
      destruct (tables env flags _) as [[msg|[]] w3] eqn:E3.
      * intros [= <- <-].
        apply follows_tables in E3 as (d & Hd & Hp & _); [|done].
        cbn [trace World0 with_trace app] in Hd. rewrite Hd, <- app_assoc.
        do 2 apply prefix_app. rewrite app_assoc. by apply prefix_app_r.
      * apply follows_tables in E3 as (d & Hd & _ & Hall); [|done].
        rewrite (Hall tt eq_refl) in Hd. clear Hall.
        cbn [trace World0 with_trace app] in Hd.
        intros (d' & Hd' & Hp & _)%follows_rpc_server.
        rewrite Hd', Hd, <- !app_assoc. by do 4 apply prefix_app.
Qed.

(** X1 — The steps of a start-up always come in the same order, which the
    flags alone fix: the exporters, the storage configuration, the
    fallback queue, one dial per scheduler entry in flag order, the five
    registrations, the listening socket, serving.  The outside world
    only decides where a start-up stops: whatever the outcome, the
    events of [main] are the first ones of that sequence, no step is
    left out or comes early, and they are all of it exactly when the
    process serves. *)
Theorem startup_order env flags r w :
  main env flags World0 = (r, w) →
  trace w `prefix_of` startup_trace flags
  ∧ ((∃ g, r = inr g) ↔ trace w = startup_trace flags)
  ∧ (serving w ↔ ∃ g, r = inr g).
Proof.
  intros Hmain. split; [by eapply main_trace_prefix|].
  destruct r as [msg|g].
  - apply main_fatal in Hmain as [Hno _]. split_and!.
    + split; [by intros [g [=]]|]. intros Heq. destruct Hno. unfold serving.
      rewrite Heq. apply (serving_startup_world flags).
    + split; [done|by intros [g [=]]].
  - apply main_ok in Hmain as (_ & _ & ->). split_and!.
    + split; [done|by eauto].
    + split; [by eauto|]. intros _. apply serving_startup_world.
Qed.

Lemma startup_order_witness :
  trace (main example_env_no_dial example_flags World0).2
  `prefix_of` startup_trace example_flags.
Proof.
  apply (startup_order example_env_no_dial example_flags
           (main example_env_no_dial example_flags World0).1
           (main example_env_no_dial example_flags World0).2).
  vm_compute. reflexivity.
Defined.



(** ** When an exporter fails *)

Lemma observability_fatal env flags w msg w' :
  observability env flags w = (inl msg, w') →
  ∃ evs,
    w' = with_trace w evs
    ∧ ((∃ err,
          prometheus_exporter_NewExporter env = Some err
          ∧ msg = "Failed to create the Prometheus stats exporter: " +:+ err
          ∧ evs = [EvGoListenAndServe (webListenAddress flags);
                   EvNewPrometheusExporter])
       ∨ (prometheus_exporter_NewExporter env = None
          ∧ ∃ err,
              view_Register env = Some err
              ∧ msg = "Failed to register ocgrpc server views: " +:+ err
              ∧ evs = [EvGoListenAndServe (webListenAddress flags);
                       EvNewPrometheusExporter; EvViewRegister])
       ∨ (prometheus_exporter_NewExporter env = None
          ∧ view_Register env = None
          ∧ ocagentAddress flags ≠ ""
          ∧ ∃ err,
              ocagent_NewExporter env (ocagentAddress flags)
                (ocagentServiceName flags) = Some err
              ∧ msg = "Failed to create ocagent-exporter: " +:+ err
              ∧ evs = [EvGoListenAndServe (webListenAddress flags);
                       EvNewPrometheusExporter; EvViewRegister;
                       EvNewOcagentExporter (ocagentAddress flags)
                         (ocagentServiceName flags)])).
Proof.
  unfold observability.
  rewrite !emit_bind_run, fatal_on_bind_run.
  destruct (prometheus_exporter_NewExporter env) as [e1|].
  { rewrite with_trace_app. intros [= <- <-]. eexists. split; [done|].
    left. by exists e1. }
  rewrite emit_bind_run, fatal_on_bind_run.
  destruct (view_Register env) as [e2|].
  { rewrite !with_trace_app. intros [= <- <-]. eexists. split; [done|].
    right. left. split; [done|]. by exists e2. }
  rewrite !with_trace_app. case_decide as Hoc; [|done].
  rewrite emit_bind_run, with_trace_app.
  destruct (ocagent_NewExporter env _ _) as [e3|] eqn:E; [|done].
  intros [= <- <-]. eexists. split; [done|]. right. right.
  split_and!; [done..|]. by exists e3.
Qed.




(** X3 — When an exporter call fails, the process ends in [log.Fatal]
    with the message of the first call that fails, in the order of the
    program, followed by the error of that very call; it has taken the
    steps before that call and no other: the storage configuration was
    not resolved, no scheduler was dialed, no service was registered
    and both tables are still empty. *)
Theorem exporter_failure_stops_startup env flags :
  ¬ observability_ok_env env flags →
  ∃ msg evs,
    main env flags World0 = (inl msg, with_trace World0 evs)
    ∧ ((∃ err,
          prometheus_exporter_NewExporter env = Some err
          ∧ msg = "Failed to create the Prometheus stats exporter: " +:+ err
          ∧ evs = [EvGoListenAndServe (webListenAddress flags);
                   EvNewPrometheusExporter])
       ∨ (prometheus_exporter_NewExporter env = None
          ∧ ∃ err,
              view_Register env = Some err
              ∧ msg = "Failed to register ocgrpc server views: " +:+ err
              ∧ evs = [EvGoListenAndServe (webListenAddress flags);
                       EvNewPrometheusExporter; EvViewRegister])
       ∨ (prometheus_exporter_NewExporter env = None
          ∧ view_Register env = None
          ∧ ocagentAddress flags ≠ ""
          ∧ ∃ err,
              ocagent_NewExporter env (ocagentAddress flags)
                (ocagentServiceName flags) = Some err
              ∧ msg = "Failed to create ocagent-exporter: " +:+ err
              ∧ evs = [EvGoListenAndServe (webListenAddress flags);
                       EvNewPrometheusExporter; EvViewRegister;
                       EvNewOcagentExporter (ocagentAddress flags)
                         (ocagentServiceName flags)]))
    ∧ evs `prefix_of` observability_trace flags
    ∧ resolutions evs = []
    ∧ dials evs = []
    ∧ registrations evs = []
    ∧ schedulers (with_trace World0 evs) = ∅
    ∧ allowActionCacheUpdatesForInstances (with_trace World0 evs) = ∅.
Proof.
  intros Hno. unfold main. rewrite bind_run.
  destruct (observability env flags World0) as [[msg|[]] w1] eqn:E.
  - pose proof E as Hfollows.
    apply follows_observability in Hfollows as (d & Hd & Hp & _).
    apply observability_fatal in E as (evs & -> & Hcases).
    cbn [trace World0 with_trace app] in Hd. subst d.
    exists msg, evs. split; [done|]. split; [exact Hcases|].
    split; [done|].
    by destruct Hcases as [(? & _ & _ & ->)|[(_ & ? & _ & _ & ->)
                                            |(_ & _ & _ & ? & _ & _ & ->)]].
  - apply observability_ok in E as (Hp & Hv & Ho & _). by destruct Hno.
Qed.

Lemma exporter_failure_stops_startup_witness :
  main example_env_no_views example_flags World0
  = (inl "Failed to register ocgrpc server views: duplicate view",
     with_trace World0
       [EvGoListenAndServe (webListenAddress example_flags);
        EvNewPrometheusExporter; EvViewRegister]).
Proof.
  destruct (exporter_failure_stops_startup example_env_no_views example_flags)
    as (msg & evs & Hmain & Hcases & _).
  { intros (_ & Hv & _). discriminate Hv. }
  destruct Hcases as [(err & Hp & _)|[(_ & err & Hv & -> & ->)
                                     |(_ & Hv & _)]].
  - discriminate Hp.
  - injection Hv as <-. exact Hmain.
  - discriminate Hv.
Defined.

(** X4 — The tracing exporter is optional: with an empty [-ocagent.address]
    it is never created, and what [ocagent.NewExporter] would have
    answered has no influence on the start-up. *)
Theorem ocagent_exporter_optional env flags f :
  ocagentAddress flags = "" →
  main (set_ocagent_NewExporter f env) flags World0 = main env flags World0
  ∧ ∀ address serviceName,
      EvNewOcagentExporter address serviceName ∉ trace (main env flags World0).2.
Proof.
  intros Haddr. split.
  - unfold main, observability. by rewrite !decide_False by (by intros []).
  - intros address serviceName Hin.
    destruct (main env flags World0) as [r w] eqn:E.
    apply main_trace_prefix in E as [k Hk]. cbn [snd] in Hin.
    assert (EvNewOcagentExporter address serviceName ∈ startup_trace flags) as H
      by (rewrite Hk, elem_of_app; by left).
    unfold startup_trace, observability_trace, rpc_server_trace in H.
    rewrite decide_False in H by (by intros []).
    rewrite !elem_of_app, list_elem_of_fmap in H.
    destruct H as [[H|H]|[H|[H|[(e & Heq & _)|H]]]]; [..|done|];
      try case_decide;
      by repeat (apply elem_of_cons in H as [?|H]; [done|]);
         apply elem_of_nil in H.
Qed.

Lemma ocagent_exporter_optional_witness :
  main (set_ocagent_NewExporter (λ _ _, Some "unreachable") example_env)
    example_flags World0
  = main example_env example_flags World0.
Proof.
  apply (ocagent_exporter_optional example_env example_flags
           (λ _ _, Some "unreachable") eq_refl).
Defined.

(** ** When a scheduler cannot be dialed or the port is taken *)

Section late_failures.
Variable env : Env.

Lemma main_after_storage flags cas acb :
  observability_ok_env env flags →
  CreateBlobAccessObjectsFromConfig env (blobstoreConfig flags) = inr (cas, acb) →
  main env flags World0
  = (tables env flags;; rpc_server env cas acb)
      (with_trace World0
         (observability_trace flags
          ++ [EvCreateBlobAccessObjectsFromConfig (blobstoreConfig flags)])).
Proof.
  intros (Hp & Hv & Ho) Hc. unfold main. rewrite bind_run.
  assert (observability env flags World0
          = (inr tt, with_trace World0 (observability_trace flags))) as ->
    by (by apply observability_ok).
  rewrite bind_run.
  assert (storage_access env flags (with_trace World0 (observability_trace flags))
          = (inr (cas, acb),
             with_trace (with_trace World0 (observability_trace flags))
               [EvCreateBlobAccessObjectsFromConfig (blobstoreConfig flags)])) as ->
    by (by apply storage_access_ok).
  by rewrite with_trace_app.
Qed.

Lemma tables_run flags w :
  next_addr w = 0%nat →
  tables env flags w
  = scheduler_pass env (schedulersList flags)
      {| schedulers :=
           fallbacks (NonExecutableBuildQueue 0)
             (allowActionCacheUpdatesForInstancesList flags) ∅;
         allowActionCacheUpdatesForInstances :=
           allowed (allowActionCacheUpdatesForInstancesList flags) ∅;
         next_addr := first_scheduler_addr flags;
         trace :=
           trace w
           ++ (if decide (0 < length (allowActionCacheUpdatesForInstancesList flags))%nat
               then [EvNewNonExecutableBuildQueue 0] else []) |}.
Proof.
  intros Hw. unfold tables.
  change ((make_schedulers ≫= ?f) w) with (f tt (make_schedulers w).2).
  cbv beta.
  change ((make_allowActionCacheUpdatesForInstances ≫= ?f) ?v)
    with (f tt (make_allowActionCacheUpdatesForInstances v).2).
  cbv beta. rewrite bind_run, fallback_pass_run.
  cbn [snd make_schedulers make_allowActionCacheUpdatesForInstances
       schedulers allowActionCacheUpdatesForInstances next_addr trace].
  rewrite Hw. unfold first_scheduler_addr. case_decide; [done|].
  destruct (allowActionCacheUpdatesForInstancesList flags); [|cbn in *; lia].
  cbn. by rewrite app_nil_r.
Qed.

(** The loop stops at the first entry whose endpoint cannot be dialed,
    after the dial. *)
Lemma scheduler_pass_no_dial pre e post err w :
  Forall (passes env) pre → contains_bar e →
  grpc_Dial env (entry_endpoint e) = Some err →
  ∃ w', scheduler_pass env (pre ++ e :: post) w
        = (inl ("Failed to create scheduler RPC client: " +:+ err), w')
        ∧ trace w' = trace w ++ (EvDial ∘ entry_endpoint <$> pre ++ [e])
        ∧ schedulers w' = forwarders (next_addr w) pre (schedulers w).
Proof.
  intros Hpre He Herr. revert w.
  induction Hpre as [|x pre [Hx Hd] _ IH]; intros w.
  - eexists. unfold scheduler_pass. cbn [app range].
    rewrite bind_run, scheduler_body_run, decide_True, Herr by done. done.
  - unfold scheduler_pass in *. cbn [app range].
    rewrite bind_run, scheduler_body_run, decide_True, Hd by done.
    edestruct IH as (w' & -> & Htr & Hs). eexists; split; [done|].
    rewrite Htr, Hs. cbn. by rewrite <- app_assoc.
Qed.

Lemma rpc_server_no_listen cas acb err w :
  net_Listen env "tcp" ":8980" = Some err →
  rpc_server env cas acb w
  = (inl ("Failed to create listening socket: " +:+ err),
     with_trace w rpc_server_trace_listen).
Proof.
  intros Herr.
  replace (with_trace w rpc_server_trace_listen)
    with (with_trace (with_trace (with_trace (with_trace (with_trace
           (with_trace w [EvRegister ActionCacheService])
              [EvRegister ContentAddressableStorageService])
              [EvRegister ByteStreamService])
              [EvRegister CapabilitiesService])
              [EvRegister ExecutionService])
              [EvListen "tcp" ":8980"])
    by (by rewrite !with_trace_app).
  unfold rpc_server, RegisterActionCacheServer,
    RegisterContentAddressableStorageServer, RegisterByteStreamServer,
    RegisterCapabilitiesServer, RegisterExecutionServer.
  cbv [mbind M_bind mret M_ret emit fatal_on log_Fatal]. by rewrite Herr.
Qed.

End late_failures.

(** X5 — When the endpoint of a scheduler entry cannot be dialed and
    everything before it went through, the process ends in [log.Fatal]
    with "Failed to create scheduler RPC client: " and the error.  The
    entries before it and the entry itself were dialed, in flag order,
    the entries after it were not, and no service was registered. *)
Theorem dial_failure_stops_startup env flags pre e post err :
  early_ok env flags →
  schedulersList flags = pre ++ e :: post →
  Forall (passes env) pre →
  contains_bar e →
  grpc_Dial env (entry_endpoint e) = Some err →
  ∃ w,
    main env flags World0
    = (inl ("Failed to create scheduler RPC client: " +:+ err), w)
    ∧ dials (trace w) = entry_endpoint <$> pre ++ [e]
    ∧ registrations (trace w) = []
    ∧ ¬ serving w.
Proof.
  intros (Hp & Hv & Ho & [cas acb] & Hc) Hl Hpre He Herr.
  edestruct (scheduler_pass_no_dial env pre e post err) as (w' & Hpass & Htr & _);
    [done..|].
  exists w'.
  assert (main env flags World0
          = (inl ("Failed to create scheduler RPC client: " +:+ err), w')) as Hmain.
  { rewrite (main_after_storage env flags cas acb) by done.
    rewrite bind_run, tables_run, Hl by done. by rewrite Hpass. }
  split; [done|]. cbn [trace with_trace World0 app] in Htr.
  split_and!; [..|by eapply main_fatal].
  - rewrite Htr. unfold dials, observability_trace.
    rewrite !omap_app, !omap_dial_events.
    change (omap _ (pre ++ [e])) with (omap (Some ∘ entry_endpoint) (pre ++ [e])).
    rewrite omap_some. by do 2 case_decide.
  - rewrite Htr. unfold registrations, observability_trace.
    rewrite !omap_app, !omap_dial_events.
    change (omap _ (pre ++ [e])) with (omap (λ _ : string, @None Service) (pre ++ [e])).
    rewrite omap_none. by do 2 case_decide.
Qed.

Lemma dial_failure_stops_startup_witness :
  ∃ w,
    main example_env_no_dial example_flags World0
    = (inl "Failed to create scheduler RPC client: invalid target", w)
    ∧ dials (trace w) = ["old-scheduler:8981"; "ubuntu-scheduler:8981"]
    ∧ registrations (trace w) = []
    ∧ ¬ serving w.
Proof.
  apply (dial_failure_stops_startup example_env_no_dial example_flags
           ["debian8|old-scheduler:8981"] "ubuntu|ubuntu-scheduler:8981"
           ["debian8|new|scheduler:8981"] "invalid target").
  - split_and!; [done..|by eexists].
  - reflexivity.
  - repeat constructor; vm_compute; by repeat constructor.
  - vm_compute. by repeat constructor.
  - reflexivity.
Defined.

(** X6 — When a scheduler entry lacks the ['|'] and everything before it
    went through, the process ends on that entry before dialing
    anything for it: the entries before it were dialed, in flag order,
    the entry itself and the entries after it were not, and no service
    was registered. *)
Theorem invalid_entry_not_dialed env flags pre e post :
  early_ok env flags →
  schedulersList flags = pre ++ e :: post →
  Forall (passes env) pre →
  ¬ contains_bar e →
  ∃ w,
    main env flags World0 = (inl ("Invalid scheduler entry: " +:+ e), w)
    ∧ dials (trace w) = entry_endpoint <$> pre
    ∧ registrations (trace w) = [].
Proof.
  intros (Hp & Hv & Ho & [cas acb] & Hc) Hl Hpre He.
  edestruct (scheduler_pass_invalid env pre e post) as (w' & Hpass & Htr);
    [done..|].
  exists w'. split.
  { rewrite (main_after_storage env flags cas acb) by done.
    rewrite bind_run, tables_run, Hl by done. by rewrite Hpass. }
  cbn [trace with_trace World0 app] in Htr. split.
  - rewrite Htr. unfold dials, observability_trace.
    rewrite !omap_app, !omap_dial_events.
    change (omap _ pre) with (omap (Some ∘ entry_endpoint) pre).
    rewrite omap_some. by do 2 case_decide.
  - rewrite Htr. unfold registrations, observability_trace.
    rewrite !omap_app, !omap_dial_events.
    change (omap _ pre) with (omap (λ _ : string, @None Service) pre).
    rewrite omap_none. by do 2 case_decide.
Qed.

Lemma invalid_entry_not_dialed_witness :
  ∃ w,
    main example_env example_flags_invalid World0
    = (inl "Invalid scheduler entry: debian8", w)
    ∧ dials (trace w) = ["ubuntu-scheduler:8981"]
    ∧ registrations (trace w) = [].
Proof.
  apply (invalid_entry_not_dialed example_env example_flags_invalid
           ["ubuntu|ubuntu-scheduler:8981"] "debian8" ["x|y"]).
  - split_and!; [done..|by eexists].
  - reflexivity.
  - all_pass.
  - not_in_list.
Defined.

(** X7 — When the listening socket cannot be created and everything before
    it went through, the process ends in [log.Fatal] with "Failed to
    create listening socket: " and the error.  By then both tables are
    complete, every scheduler was dialed and the five services are
    registered, in the order of [main]; the process does not serve. *)
Theorem listen_failure_stops_startup env flags err :
  early_ok env flags →
  Forall (passes env) (schedulersList flags) →
  net_Listen env "tcp" ":8980" = Some err →
  ∃ w,
    main env flags World0
    = (inl ("Failed to create listening socket: " +:+ err), w)
    ∧ schedulers w = schedulers (startup_world flags)
    ∧ allowActionCacheUpdatesForInstances w
      = allowActionCacheUpdatesForInstances (startup_world flags)
    ∧ dials (trace w) = entry_endpoint <$> schedulersList flags
    ∧ registrations (trace w)
      = [ActionCacheService; ContentAddressableStorageService;
         ByteStreamService; CapabilitiesService; ExecutionService]
    ∧ ¬ serving w.
Proof.
  intros (Hp & Hv & Ho & [cas acb] & Hc) Hpass Herr.
  eexists. split.
  - rewrite (main_after_storage env flags cas acb) by done.
    rewrite bind_run.
    set (w2 := with_trace World0
                 (observability_trace flags
                  ++ [EvCreateBlobAccessObjectsFromConfig (blobstoreConfig flags)])).
    assert (tables env flags w2
            = (inr tt,
               {| schedulers := schedulers (startup_world flags);
                  allowActionCacheUpdatesForInstances :=
                    allowActionCacheUpdatesForInstances (startup_world flags);
                  next_addr := next_addr (startup_world flags);
                  trace :=
                    trace w2
                    ++ (if decide (0 < length
                                     (allowActionCacheUpdatesForInstancesList flags))%nat
                        then [EvNewNonExecutableBuildQueue 0] else [])
                    ++ (EvDial ∘ entry_endpoint <$> schedulersList flags) |})) as ->
      by (by apply tables_ok).
    by apply rpc_server_no_listen.
  - cbn [with_trace schedulers allowActionCacheUpdatesForInstances trace World0 app].
    split_and!; [done|done|..].
    + unfold dials, observability_trace, rpc_server_trace_listen.
      rewrite <- !app_assoc, !omap_app, !omap_dial_events.
      change (omap _ (schedulersList flags))
        with (omap (Some ∘ entry_endpoint) (schedulersList flags)).
      rewrite omap_some. do 2 case_decide; cbn; by rewrite app_nil_r.
    + unfold registrations, observability_trace, rpc_server_trace_listen.
      rewrite <- !app_assoc, !omap_app, !omap_dial_events.
      change (omap _ (schedulersList flags))
        with (omap (λ _ : string, @None Service) (schedulersList flags)).
      rewrite omap_none. by do 2 case_decide.
    + unfold serving, observability_trace, rpc_server_trace_listen, with_trace.
      cbn [trace]. rewrite !elem_of_app, list_elem_of_fmap.
      intros H.
      repeat lazymatch goal with H : _ ∨ _ |- _ => destruct H as [H|H] end.
      all: try (by destruct H as (e & Heq & _)).
      all: try case_decide.
      all: repeat (apply elem_of_cons in H as [?|H]; [done|]).
      all: by apply elem_of_nil in H.
Qed.

Lemma listen_failure_stops_startup_witness :
  ∃ w,
    main example_env_no_listen example_flags World0
    = (inl "Failed to create listening socket: address already in use", w)
    ∧ registrations (trace w)
      = [ActionCacheService; ContentAddressableStorageService;
         ByteStreamService; CapabilitiesService; ExecutionService]
    ∧ ¬ serving w.
Proof.
  destruct (listen_failure_stops_startup example_env_no_listen example_flags
              "address already in use")
    as (w & Hmain & _ & _ & _ & Hreg & Hno).
  - split_and!; [done..|by eexists].
  - unfold example_flags. cbn [schedulersList]. all_pass.
  - reflexivity.
  - exists w. split; [exact Hmain|]. split; [exact Hreg | exact Hno].
Defined.

(** ** More about the two tables *)

Lemma startup_schedulers_is_Some flags i :
  is_Some (schedulers (startup_world flags) !! i) ↔
    i ∈ allowActionCacheUpdatesForInstancesList flags
    ∨ i ∈ scheduler_instances flags.
Proof.
  rewrite <- not_eq_None_Some, startup_schedulers_None.
  unfold scheduler_instances. rewrite list_elem_of_fmap, Forall_forall. split.
  - intros Hno.
    destruct (decide (i ∈ allowActionCacheUpdatesForInstancesList flags)) as [?|Ha];
      [by left|right].
    destruct (decide (Exists (λ e, entry_instance e = i) (schedulersList flags)))
      as [(e & He & Heq)%Exists_exists|Hex]; [by exists e|].
    destruct Hno. split; [done|]. intros e He Heq. apply Hex, Exists_exists. eauto.
  - intros [Ha|(e & -> & He)] [Hno Hall]; [done|]. by apply (Hall e).
Qed.

(** X8 — The instance names the lookup closure knows are those of the
    allow-list together with those of the scheduler entries, nothing
    else; the names that may write into the action cache are those of
    the allow-list.  So the lookup never fails for an instance that may
    write into the action cache, with or without a scheduler. *)
Theorem routing_table_keys env flags g w :
  main env flags World0 = (inr g, w) →
  dom (schedulers w)
  = list_to_set (allowActionCacheUpdatesForInstancesList flags)
    ∪ list_to_set (scheduler_instances flags)
  ∧ dom (allowActionCacheUpdatesForInstances w)
    = list_to_set (allowActionCacheUpdatesForInstancesList flags)
  ∧ dom (allowActionCacheUpdatesForInstances w) ⊆ dom (schedulers w)
  ∧ ∀ i, i ∈ allowActionCacheUpdatesForInstancesList flags →
         ∃ q, lookup i w = (inr q, w).
Proof.
  intros (_ & _ & ->)%main_ok.
  assert (dom (schedulers (startup_world flags))
          = list_to_set (allowActionCacheUpdatesForInstancesList flags)
            ∪ list_to_set (scheduler_instances flags)) as Hs.
  { apply set_eq. intros i.
    rewrite elem_of_dom, startup_schedulers_is_Some, elem_of_union.
    by rewrite !elem_of_list_to_set. }
  assert (dom (allowActionCacheUpdatesForInstances (startup_world flags))
          = list_to_set (allowActionCacheUpdatesForInstancesList flags)) as Ha.
  { apply set_eq. intros i.
    rewrite elem_of_dom, startup_allow, elem_of_list_to_set.
    destruct (decide (i ∈ allowActionCacheUpdatesForInstancesList flags));
      split; first [done | by intros [? [=]] | eauto]. }
  split_and!; [done|done| |].
  - rewrite Hs, Ha. set_solver.
  - intros i Hi.
    assert (is_Some (schedulers (startup_world flags) !! i)) as [q Hq]
      by (apply startup_schedulers_is_Some; by left).
    exists q. by apply lookup_Some.
Qed.

Lemma routing_table_keys_witness :
  dom (schedulers (startup_world example_flags))
  = list_to_set ["debian8"; "cache-only"]
    ∪ list_to_set (scheduler_instances example_flags).
Proof.
  apply (routing_table_keys example_env example_flags
           (registered example_cas example_ac) (startup_world example_flags)).
  vm_compute. reflexivity.
Defined.

(** X9 — Without an allow-list flag no fallback queue is created: nobody may
    write into the action cache and every queue of the routing table is
    a forwarding queue.  Without any scheduler flag either, the routing
    table is empty and the lookup closure refuses every instance
    name. *)
Theorem no_allow_list_no_fallback env flags g w :
  main env flags World0 = (inr g, w) →
  allowActionCacheUpdatesForInstancesList flags = [] →
  fallbacks_created (trace w) = []
  ∧ allowActionCacheUpdatesForInstances w = ∅
  ∧ (∀ i q, schedulers w !! i = Some q →
       ∃ a scheduler, q = ForwardingBuildQueue a scheduler)
  ∧ (schedulersList flags = [] →
     schedulers w = ∅
     ∧ ∀ i, lookup i w
            = (inl (status_Errorf InvalidArgument "Unknown instance name"), w)).
Proof.
  intros (_ & _ & ->)%main_ok Hal.
  cbn [startup_world schedulers allowActionCacheUpdatesForInstances trace].
  rewrite fallbacks_created_startup, Hal. cbn [length allowed fallbacks foldl].
  split_and!; [done|done| |].
  - intros i q Hq.
    destruct (forwarders_lookup_cases (first_scheduler_addr flags)
                (schedulersList flags) ∅ i) as [Heq|(a & c & Heq)];
      rewrite Heq in Hq; [by rewrite lookup_empty in Hq|].
    injection Hq as <-. eauto.
  - intros Hsl. split; [by rewrite Hsl|]. intros i. apply lookup_None.
    cbn [startup_world schedulers]. by rewrite Hsl, Hal.
Qed.

Lemma no_allow_list_no_fallback_witness :
  schedulers (startup_world example_flags_bare) = ∅
  ∧ ∀ i, lookup i (startup_world example_flags_bare)
         = (inl (status_Errorf InvalidArgument "Unknown instance name"),
            startup_world example_flags_bare).
Proof.
  destruct (no_allow_list_no_fallback example_env example_flags_bare
              (registered example_cas example_ac)
              (startup_world example_flags_bare)
              ltac:(vm_compute; reflexivity) eq_refl) as (_ & _ & _ & H).
  exact (H eq_refl).
Defined.

(** Where a queue of the routing table comes from: the table the loop
    started with, or the entry at some position [k] of the scheduler
    flags. *)
Lemma forwarders_lookup_inv n l m i q :
  forwarders n l m !! i = Some q →
  m !! i = Some q
  ∨ ∃ k e, l !! k = Some e ∧ entry_instance e = i
           ∧ q = ForwardingBuildQueue (S (n + 2 * k))
                   {| conn_addr := (n + 2 * k)%nat;
                      conn_target := entry_endpoint e |}.
Proof.
  revert n m. induction l as [|e l IH]; intros n m H; [by left|].
  cbn [forwarders] in H. apply IH in H as [H|(k & e' & Hk & He' & ->)].
  - destruct (decide (entry_instance e = i)) as [<-|Hne].
    + rewrite lookup_insert_eq in H. injection H as <-.
      right. exists 0%nat, e. by rewrite Nat.mul_0_r, Nat.add_0_r.
    + rewrite lookup_insert_ne in H by done. by left.
  - right. exists (S k), e'. split_and!; [done..|].
    by replace (n + 2 * S k)%nat with (S (S n) + 2 * k)%nat by lia.
Qed.

(** X10 — Forwarding queues are never shared: two different instance names
    with a scheduler have different queues over different connections,
    also when their entries name the same endpoint.  Only the fallback
    is one queue for many names. *)
Theorem forwarding_queues_not_shared env flags g w i j a c a' c' :
  main env flags World0 = (inr g, w) →
  i ≠ j →
  schedulers w !! i = Some (ForwardingBuildQueue a c) →
  schedulers w !! j = Some (ForwardingBuildQueue a' c') →
  a ≠ a' ∧ conn_addr c ≠ conn_addr c' ∧ a ≠ conn_addr c' ∧ a' ≠ conn_addr c.
Proof.
  intros (_ & _ & ->)%main_ok Hij Hi Hj.
  cbn [startup_world schedulers] in Hi, Hj.
  apply forwarders_lookup_inv in Hi as [Hi|(k & e & Hk & He & Hq)];
    [rewrite fallbacks_lookup, lookup_empty in Hi; by case_decide|].
  apply forwarders_lookup_inv in Hj as [Hj|(k' & e' & Hk' & He' & Hq')];
    [rewrite fallbacks_lookup, lookup_empty in Hj; by case_decide|].
  injection Hq as -> ->. injection Hq' as -> ->. cbn [conn_addr].
  assert (k ≠ k') by (intros ->; congruence). lia.
Qed.

Lemma forwarding_queues_not_shared_witness :
  schedulers (startup_world example_flags) !! "debian8"
  = Some (ForwardingBuildQueue 6
            {| conn_addr := 5; conn_target := "new|scheduler:8981" |})
  ∧ schedulers (startup_world example_flags) !! "ubuntu"
    = Some (ForwardingBuildQueue 4
              {| conn_addr := 3; conn_target := "ubuntu-scheduler:8981" |})
  ∧ (6 ≠ 4 ∧ 5 ≠ 3 ∧ 6 ≠ 3 ∧ 4 ≠ 5)%nat.
Proof.
  split; [vm_compute; reflexivity|]. split; [vm_compute; reflexivity|].
  apply (forwarding_queues_not_shared example_env example_flags
           (registered example_cas example_ac) (startup_world example_flags)
           "debian8" "ubuntu" 6%nat
           {| conn_addr := 5; conn_target := "new|scheduler:8981" |} 4%nat
           {| conn_addr := 3; conn_target := "ubuntu-scheduler:8981" |});
    [vm_compute; reflexivity | done | vm_compute; reflexivity
    | vm_compute; reflexivity].
Defined.

(** X11 — The order of the allow-list flags and their repetition do not
    matter: two start-ups whose allow-lists name the same instances and
    whose scheduler flags are the same end with the same two tables. *)
Theorem allow_list_order_irrelevant env flags g w env' flags' g' w' :
  main env flags World0 = (inr g, w) →
  main env' flags' World0 = (inr g', w') →
  (∀ i, i ∈ allowActionCacheUpdatesForInstancesList flags
        ↔ i ∈ allowActionCacheUpdatesForInstancesList flags') →
  schedulersList flags = schedulersList flags' →
  schedulers w = schedulers w'
  ∧ allowActionCacheUpdatesForInstances w
    = allowActionCacheUpdatesForInstances w'.
Proof.
  intros (_ & _ & ->)%main_ok (_ & _ & ->)%main_ok Hal Hsl.
  cbn [startup_world schedulers allowActionCacheUpdatesForInstances].
  assert (first_scheduler_addr flags = first_scheduler_addr flags') as ->.
  { unfold first_scheduler_addr.
    destruct (allowActionCacheUpdatesForInstancesList flags) as [|x l] eqn:E,
      (allowActionCacheUpdatesForInstancesList flags') as [|x' l'] eqn:E';
      cbn [length]; repeat case_decide; try lia; try done.
    - exfalso. eapply (not_elem_of_nil x'), Hal. by left.
    - exfalso. eapply (not_elem_of_nil x), Hal. by left. }
  rewrite Hsl. split.
  - f_equal. apply map_eq. intros i. rewrite !fallbacks_lookup.
    destruct (decide (i ∈ allowActionCacheUpdatesForInstancesList flags)) as [Hi|Hi].
    + rewrite decide_True; [done|]. by apply Hal.
    + rewrite decide_False; [done|]. by rewrite <- Hal.
  - apply map_eq. intros i. rewrite !allowed_lookup.
    destruct (decide (i ∈ allowActionCacheUpdatesForInstancesList flags)) as [Hi|Hi].
    + rewrite decide_True; [done|]. by apply Hal.
    + rewrite decide_False; [done|]. by rewrite <- Hal.
Qed.

Lemma allow_list_order_irrelevant_witness :
  schedulers (startup_world example_flags)
  = schedulers (startup_world example_flags_reordered)
  ∧ allowActionCacheUpdatesForInstances (startup_world example_flags)
    = allowActionCacheUpdatesForInstances (startup_world example_flags_reordered).
Proof.
  apply (allow_list_order_irrelevant example_env example_flags
           (registered example_cas example_ac) (startup_world example_flags)
           example_env example_flags_reordered
           (registered example_cas example_ac)
           (startup_world example_flags_reordered));
    [vm_compute; reflexivity | vm_compute; reflexivity | | reflexivity].
  intros i. unfold example_flags, example_flags_reordered.
  cbn [allowActionCacheUpdatesForInstancesList].
  rewrite !elem_of_cons, !elem_of_nil. tauto.
Defined.

(** ** Instance names and the separator *)

Lemma entry_instance_no_bar e : ¬ contains_bar (entry_instance e).
Proof.
  unfold entry_instance.
  destruct (first_bar e) as [Hno|(a & b & -> & Hno)].
  - by rewrite SplitN_no_bar.
  - by rewrite SplitN_bar.
Qed.

(** X12 — Splitting a scheduler entry loses nothing: there are one or two
    components, joined by ['|'] they are the entry again, and the first
    one, the instance name, never has a ['|'] in it. *)
Theorem scheduler_entry_round_trip e :
  String.concat "|" (strings.SplitN e "|" 2) = e
  ∧ (1 ≤ length (strings.SplitN e "|" 2) ≤ 2)%nat
  ∧ ¬ contains_bar (entry_instance e)
  ∧ (contains_bar e → e = entry_instance e +:+ "|" +:+ entry_endpoint e).
Proof.
  unfold entry_instance, entry_endpoint.
  destruct (first_bar e) as [Hno|(a & b & -> & Hno)].
  - rewrite SplitN_no_bar by done. split_and!; [done|cbn; lia|cbn; lia|done|done].
  - rewrite SplitN_bar by done. split_and!; [done|cbn; lia|cbn; lia|done|done].
Qed.

(** X13 — An instance name with a ['|'] in it can be put on the allow-list but
    can never get a scheduler, whatever the scheduler flags are: it is
    served by the fallback queue if it is on the allow-list and is
    unknown otherwise. *)
Theorem instance_with_bar_has_no_scheduler env flags g w i :
  main env flags World0 = (inr g, w) →
  contains_bar i →
  schedulers w !! i
  = if decide (i ∈ allowActionCacheUpdatesForInstancesList flags)
    then Some (NonExecutableBuildQueue 0) else None.
Proof.
  intros (_ & _ & ->)%main_ok Hi. cbn [startup_world schedulers].
  rewrite forwarders_lookup_other, fallbacks_lookup, lookup_empty; [done|].
  apply Forall_forall. intros e _ Heq. subst i.
  by destruct (entry_instance_no_bar e).
Qed.

Lemma instance_with_bar_has_no_scheduler_witness :
  schedulers (startup_world example_flags_bar) !! "a|b"
  = Some (NonExecutableBuildQueue 0).
Proof.
  apply (instance_with_bar_has_no_scheduler example_env example_flags_bar
           (registered example_cas example_ac) (startup_world example_flags_bar)
           "a|b" ltac:(vm_compute; reflexivity)).
  has_bar.
Defined.

(** ** The serialized descriptor of the TLS configuration messages *)

Lemma Descriptors_once CompressGZIP ts p :
  tls.file_pkg_proto_configuration_tls_tls_proto_rawDescOnce p = true →
  tls.Descriptors CompressGZIP ts p
  = (λ t, (tls.file_pkg_proto_configuration_tls_tls_proto_rawDescData p,
           [tls.index t])) <$> ts.
Proof.
  intros Hp. induction ts as [|t ts IH]; [done|].
  cbn [tls.Descriptors fmap list_fmap].
  destruct t; cbn [tls.Descriptor]; unfold tls.ClientConfiguration_Descriptor,
    tls.ServerConfiguration_Descriptor,
    tls.file_pkg_proto_configuration_tls_tls_proto_rawDescGZIP;
    rewrite Hp, IH; done.
Qed.

(** X14 — However often and in whatever order the [Descriptor] methods of the
    two messages are called, every call returns the same bytes, the
    descriptor compressed once (never the compression of an already
    compressed descriptor), together with the index of its message: 0
    for [ClientConfiguration], 1 for [ServerConfiguration]. *)
Theorem descriptor_compressed_once CompressGZIP rawDesc ts :
  tls.Descriptors CompressGZIP ts (tls.package_init rawDesc)
  = (λ t, (CompressGZIP rawDesc, [tls.index t])) <$> ts.
Proof.
  destruct ts as [|t ts]; [done|].
  cbn [tls.Descriptors fmap list_fmap].
  destruct t; cbn [tls.Descriptor]; unfold tls.ClientConfiguration_Descriptor,
    tls.ServerConfiguration_Descriptor,
    tls.file_pkg_proto_configuration_tls_tls_proto_rawDescGZIP, tls.package_init;
    cbn [tls.file_pkg_proto_configuration_tls_tls_proto_rawDescOnce
         tls.file_pkg_proto_configuration_tls_tls_proto_rawDescData];
    by rewrite Descriptors_once.
Qed.
